(** * processLogo: background removal, palette quantisation, crop and centre

    A shallow embedding of [processLogo] (the logo pre-processing routine of
    the keychain configurator) and the verification of its specification.

    Numbers.  Every number the routine compares is an integer or a quotient of
    integers far below 2^53, so the IEEE doubles of the source are modelled by
    exact arithmetic:
    - [Math.sqrt(s) < t] for an integer [s] and t = 40 or 45 is [s < t*t]
      (the square root is monotone and correctly rounded, and sqrt(t*t) = t);
      two distances compare as their squares do;
    - [Math.round(n / d)] for integers [n], [d > 0] is floor(n/d + 1/2),
      that is [(2n + d) / 2d] in integer division;
    - [Math.max(w, h) * 1.2] is the rational 6/5 * max(w, h): the double
      product is that rational exactly when it is a whole number, and has the
      same integer part otherwise, so the side of the canvas and the question
      whether an offset is whole are the same in both.

    Pixels.  [imageData.data] is a Uint8ClampedArray of length 4 * width *
    height that the loops walk in steps of four; it is modelled as the list
    of its RGBA quadruplets, pixel [n] standing for the indices 4n .. 4n+3. *)

From Stdlib Require Import Ascii.
From Stdlib Require Import String ZArith QArith Qround List Bool Lia Permutation.
From Stdlib Require Import Sorted.
From Stdlib Require Import Reals.
Import ListNotations.
Open Scope Z_scope.

(** ** Data model *)

Record Pixel := mkPixel { red : Z; green : Z; blue : Z; alpha : Z }.

Record ImageData := mkImageData { width : Z; height : Z; data : list Pixel }.

(** One entry of [colorAccumulator]: running channel sums and a pixel count. *)
Record Bucket := mkBucket { b_r : Z; b_g : Z; b_b : Z; b_count : Z }.

(** The key [`${keyR},${keyG},${keyB}`]; the decimal rendering with commas is
    injective on triples of integers, so the triple itself is the key. *)
Definition Key := (Z * Z * Z)%type.

(** [colorAccumulator] is an object with string keys that are never array
    indices, so [Object.values] lists it in insertion order: an association
    list, newest key last. *)
Definition Accumulator := list (Key * Bucket).

(** An object [{r, g, b}] built by [sortedBuckets.map]; [c_id] is the identity
    of the object (its position in [candidates]), which is what
    [palette.includes] compares. *)
Record Color := mkColor { c_id : nat; c_r : Z; c_g : Z; c_b : Z }.

(** The variables the first loop updates. *)
Record Scan := mkScan {
  minX : Z; minY : Z; maxX : Z; maxY : Z;
  hasContent : bool;
  colorAccumulator : Accumulator }.

(** ** Arithmetic of the source *)

(** [Math.pow(r1 - r2, 2) + Math.pow(g1 - g2, 2) + Math.pow(b1 - b2, 2)],
    the argument of every [Math.sqrt] of the source. *)
Definition sqDist (r1 g1 b1 r2 g2 b2 : Z) : Z :=
  (r1 - r2) * (r1 - r2) + (g1 - g2) * (g1 - g2) + (b1 - b2) * (b1 - b2).

(** [Math.round(n / d)] for [d > 0]. *)
Definition jsRoundDiv (n d : Z) : Z := (2 * n + d) / (2 * d).

(** A store into the Uint8ClampedArray. *)
Definition clamp8 (v : Z) : Z := Z.max 0 (Z.min 255 v).

Definition bucketSize : Z := 24.

Definition quantize (v : Z) : Z := jsRoundDiv v bucketSize * bucketSize.

Definition keyOf (r g b : Z) : Key := (quantize r, quantize g, quantize b).

Definition key_eqb (k1 k2 : Key) : bool :=
  let '(r1, g1, b1) := k1 in
  let '(r2, g2, b2) := k2 in
  (r1 =? r2) && (g1 =? g2) && (b1 =? b2).

(** ** 2. Process pixels: remove background *)

Definition isBackground (hasAlpha : bool) (bgR bgG bgB : Z) (p : Pixel) : bool :=
  if negb hasAlpha
  then sqDist (red p) (green p) (blue p) bgR bgG bgB <? 40 * 40
  else alpha p <? 20.

(** [if (!colorAccumulator[key]) colorAccumulator[key] = {0,0,0,0}] followed by
    the four updates. *)
Fixpoint addColor (key : Key) (r g b : Z) (acc : Accumulator) : Accumulator :=
  match acc with
  | [] => [(key, mkBucket (0 + r) (0 + g) (0 + b) (0 + 1))]
  | (k, bk) :: rest =>
      if key_eqb k key
      then (k, mkBucket (b_r bk + r) (b_g bk + g) (b_b bk + b) (b_count bk + 1)) :: rest
      else (k, bk) :: addColor key r g b rest
  end.

Definition setAlpha (p : Pixel) (a : Z) : Pixel :=
  mkPixel (red p) (green p) (blue p) (clamp8 a).

(** The [else] branch of the loop body at pixel [n] = i / 4. *)
Definition collect (w : Z) (n : Z) (p : Pixel) (st : Scan) : Scan :=
  let x := n mod w in
  let y := n / w in
  mkScan (if x <? minX st then x else minX st)
         (if y <? minY st then y else minY st)
         (if x >? maxX st then x else maxX st)
         (if y >? maxY st then y else maxY st)
         true
         (addColor (keyOf (red p) (green p) (blue p)) (red p) (green p) (blue p)
                   (colorAccumulator st)).

(** The loop [for (let i = 0; i < data.length; i += 4)] from pixel [n] on:
    the pixels as it leaves them, and the final value of its variables. *)
Fixpoint scanFrom (w : Z) (hasAlpha : bool) (bgR bgG bgB : Z)
         (n : Z) (px : list Pixel) (st : Scan) : list Pixel * Scan :=
  match px with
  | [] => ([], st)
  | p :: rest =>
      if isBackground hasAlpha bgR bgG bgB p
      then let '(out, st') := scanFrom w hasAlpha bgR bgG bgB (n + 1) rest st in
           (setAlpha p 0 :: out, st')
      else let '(out, st') := scanFrom w hasAlpha bgR bgG bgB (n + 1) rest
                                       (collect w n p st) in
           (p :: out, st')
  end.

(** [data[0] .. data[3]]; reading past the end of an empty array gives
    [undefined], which no pixel of a decoded image (width, height > 0) meets. *)
Definition bgPixel (img : ImageData) : Pixel :=
  hd (mkPixel 0 0 0 255) (data img).

Definition hasAlpha (img : ImageData) : bool := alpha (bgPixel img) =? 0.

Definition initScan (img : ImageData) : Scan :=
  mkScan (width img) (height img) 0 0 false [].

Definition removeBackground (img : ImageData) : list Pixel * Scan :=
  let bg := bgPixel img in
  scanFrom (width img) (hasAlpha img) (red bg) (green bg) (blue bg)
           0 (data img) (initScan img).

(** ** 3. Determine palette *)

(** [Array.prototype.sort] is stable: [(a, b) => b.count - a.count] orders by
    count, largest first, equal counts in insertion order. *)
Fixpoint insertBucket (x : Bucket) (l : list Bucket) : list Bucket :=
  match l with
  | [] => [x]
  | y :: ys => if b_count y <=? b_count x then x :: y :: ys
               else y :: insertBucket x ys
  end.

Definition sortBuckets (l : list Bucket) : list Bucket :=
  fold_right insertBucket [] l.

Definition sortedBuckets (acc : Accumulator) : list Bucket :=
  sortBuckets (map snd acc).

Definition average (i : nat) (bk : Bucket) : Color :=
  mkColor i (jsRoundDiv (b_r bk) (b_count bk))
            (jsRoundDiv (b_g bk) (b_count bk))
            (jsRoundDiv (b_b bk) (b_count bk)).

Fixpoint mapIndexed (i : nat) (bs : list Bucket) : list Color :=
  match bs with
  | [] => []
  | bk :: rest => average i bk :: mapIndexed (S i) rest
  end.

Definition candidates (acc : Accumulator) : list Color :=
  mapIndexed 0 (sortedBuckets acc).

Definition colorDist (c p : Color) : Z :=
  sqDist (c_r c) (c_g c) (c_b c) (c_r p) (c_g p) (c_b p).

(** The inner loop over [palette], leaving at the first colour closer than 45. *)
Fixpoint isDistinct (cand : Color) (palette : list Color) : bool :=
  match palette with
  | [] => true
  | p :: rest => if colorDist cand p <? 45 * 45 then false else isDistinct cand rest
  end.

(** [for (const cand of candidates)] with its [break]. *)
Fixpoint greedy (cands : list Color) (palette : list Color) : list Color :=
  match cands with
  | [] => palette
  | cand :: rest =>
      if (4 <=? length palette)%nat then palette
      else if isDistinct cand palette then greedy rest (palette ++ [cand])
      else greedy rest palette
  end.

(** [palette.includes(c)]: identity of objects. *)
Definition includes (palette : list Color) (c : Color) : bool :=
  existsb (fun p => Nat.eqb (c_id p) (c_id c)) palette.

(** [while (palette.length < 4 && i < candidates.length)], [cands] being the
    candidates from index [i] on. *)
Fixpoint fill (cands : list Color) (palette : list Color) : list Color :=
  match cands with
  | [] => palette
  | c :: rest =>
      if (length palette <? 4)%nat
      then fill rest (if includes palette c then palette else palette ++ [c])
      else palette
  end.

Definition selectPalette (cands : list Color) : list Color :=
  let palette := greedy cands [] in
  if (length palette <? 4)%nat && (0 <? length cands)%nat
  then fill cands palette
  else palette.

(** ** 4. Quantize image *)

(** [dist < minDist], [None] standing for [Infinity]. *)
Definition ltMin (dist : Z) (minDist : option Z) : bool :=
  match minDist with
  | None => true
  | Some m => dist <? m
  end.

Fixpoint closest (r g b : Z) (palette : list Color)
         (minDist : option Z) (bestColor : Color) : Color :=
  match palette with
  | [] => bestColor
  | p :: rest =>
      let dist := sqDist r g b (c_r p) (c_g p) (c_b p) in
      if ltMin dist minDist then closest r g b rest (Some dist) p
      else closest r g b rest minDist bestColor
  end.

Definition remapPixel (p0 : Color) (palette : list Color) (p : Pixel) : Pixel :=
  if alpha p =? 0 then p
  else let bestColor := closest (red p) (green p) (blue p) palette None p0 in
       mkPixel (clamp8 (c_r bestColor)) (clamp8 (c_g bestColor))
               (clamp8 (c_b bestColor)) (clamp8 255).

Definition remap (palette : list Color) (px : list Pixel) : list Pixel :=
  match palette with
  | [] => px
  | p0 :: _ => map (remapPixel p0 palette) px
  end.

(** ** 5. Crop and centre *)

Definition contentWidth (st : Scan) : Z := maxX st - minX st + 1.

Definition contentHeight (st : Scan) : Z := maxY st - minY st + 1.

(** [Math.max(contentWidth, contentHeight) * 1.2]: not rounded. *)
Definition size (st : Scan) : Q :=
  (inject_Z (Z.max (contentWidth st) (contentHeight st)) * (12 # 10))%Q.

(** [finalCanvas.width = size]: the attribute is an [unsigned long], and the
    conversion of a number to it drops the fractional part ([size] is never
    negative). *)
Definition canvasSide (st : Scan) : Z := Qfloor (size st).

Definition destX (st : Scan) : Q :=
  ((size st - inject_Z (contentWidth st)) / (2 # 1))%Q.

Definition destY (st : Scan) : Q :=
  ((size st - inject_Z (contentHeight st)) / (2 # 1))%Q.

Definition transparent : Pixel := mkPixel 0 0 0 0.

(** Pixel (x, y) of a row-major bitmap of width [w]. *)
Definition pixelAt (w : Z) (px : list Pixel) (x y : Z) : Pixel :=
  nth (Z.to_nat (y * w + x)) px transparent.

Definition isWhole (q : Q) : bool := Qeq_bool q (inject_Z (Qfloor q)).

(** Compositing one source pixel over the transparent black of a new canvas
    (source-over): a pixel of alpha 0 leaves transparent black, an opaque
    pixel is kept (the second loop leaves no other alpha). *)
Definition sourceOver (p : Pixel) : Pixel :=
  if alpha p =? 0 then transparent else p.

(** [drawImage(canvas, sx, sy, sw, sh, dx, dy, sw, sh)] at whole offsets:
    destination pixel (x, y) of the new canvas; no scaling, so no filtering. *)
Definition blitPixel (w : Z) (px : list Pixel) (sx sy sw sh dx dy : Z)
           (x y : Z) : Pixel :=
  if (dx <=? x) && (x <? dx + sw) && (dy <=? y) && (y <? dy + sh)
  then sourceOver (pixelAt w px (sx + (x - dx)) (sy + (y - dy)))
  else transparent.

Definition indices (len : Z) : list Z := map Z.of_nat (seq 0 (Z.to_nat len)).

Definition blit (w : Z) (px : list Pixel) (sx sy sw sh dx dy : Z)
           (side : Z) : list Pixel :=
  map (fun n => blitPixel w px sx sy sw sh dx dy (n mod side) (n / side))
      (indices (side * side)).

(** ** The browser *)

(** What the routine asks of its host: decoding ([img.onload] with the pixels
    [getImageData] returns, or [img.onerror]), the two [getContext('2d')]
    calls, the rasteriser's answer when [drawImage] is given fractional
    offsets (anti-aliasing is left to the implementation), and the PNG
    encoder. *)
Record Platform := mkPlatform {
  loadImage : string -> option ImageData;
  getContext : bool;
  getFinalContext : bool;
  antialias : Z -> list Pixel -> Z -> Z -> Z -> Z -> Q -> Q -> Z -> list Pixel;
  toDataURL : ImageData -> string }.

Definition drawImage (P : Platform) (w : Z) (px : list Pixel)
           (sx sy sw sh : Z) (dx dy : Q) (side : Z) : list Pixel :=
  if isWhole dx && isWhole dy
  then blit w px sx sy sw sh (Qfloor dx) (Qfloor dy) side
  else antialias P w px sx sy sw sh dx dy side.

(** How the promise settles, if it does.  The executor is given [resolve]
    only; an exception thrown inside [img.onload] reaches neither [resolve]
    nor [img.onerror], and leaves the promise pending for good. *)
Inductive Settlement :=
| Resolved (value : string)
| Rejected (reason : string)
| Pending.

(** ** The pipeline *)

Definition palette (img : ImageData) : list Color :=
  selectPalette (candidates (colorAccumulator (snd (removeBackground img)))).

(** [imageData.data] after the second loop. *)
Definition processed (img : ImageData) : list Pixel :=
  remap (palette img) (fst (removeBackground img)).

Definition finalCanvas (P : Platform) (img : ImageData) : ImageData :=
  let st := snd (removeBackground img) in
  mkImageData (canvasSide st) (canvasSide st)
    (drawImage P (width img) (processed img)
               (minX st) (minY st) (contentWidth st) (contentHeight st)
               (destX st) (destY st) (canvasSide st)).

(** [img.onload].  [getImageData(0, 0, canvas.width, canvas.height)] throws
    an IndexSizeError when the width or the height is 0: nothing after it
    runs. *)
Definition onload (P : Platform) (imageUrl : string) (img : ImageData) : Settlement :=
  if negb (getContext P) then Resolved imageUrl
  else if (width img =? 0) || (height img =? 0) then Pending
  else if negb (hasContent (snd (removeBackground img))) then Resolved imageUrl
  else if negb (getFinalContext P) then Resolved imageUrl
  else Resolved (toDataURL P (finalCanvas P img)).

Definition processLogo (P : Platform) (imageUrl : string) : Settlement :=
  match loadImage P imageUrl with
  | Some img => onload P imageUrl img
  | None => Resolved imageUrl
  end.

(** ** Sample inputs *)

Definition white : Pixel := mkPixel 255 255 255 255.
Definition pureRed : Pixel := mkPixel 255 0 0 255.

(** Scenario A: 10 x 10, white, with a red block on rows and columns 3 to 6. *)
Definition scenarioA : ImageData :=
  mkImageData 10 10
    (map (fun n => if (3 <=? n mod 10) && (n mod 10 <=? 6)
                      && (3 <=? n / 10) && (n / 10 <=? 6)
                   then pureRed else white)
         (indices 100)).

Definition transparentBlack : Pixel := mkPixel 0 0 0 0.

(** An 11 x 2 image on opaque white: a red pixel at (1, 0) and a fully
    transparent pixel at (10, 1), which a decoder hands over as transparent
    black. *)
Definition ghost : ImageData :=
  mkImageData 11 2
    (map (fun n => if n =? 1 then pureRed
                   else if n =? 21 then transparentBlack else white)
         (indices 22)).

(** A 7 x 1 image on white: two pixels of a dark red, then one pixel each of
    two colours at distance 40 from it, of a brighter red and of a blue. *)
Definition shades : ImageData :=
  mkImageData 7 1
    [white; mkPixel 100 0 0 255; mkPixel 100 0 0 255; mkPixel 100 40 0 255;
     mkPixel 100 0 40 255; mkPixel 200 0 0 255; mkPixel 0 0 200 255].

(** An 11 x 2 image on white with four opaque dark reds: 12 and 35 share a
    bucket whose average, 24, is farther from each of them than 11 and 36,
    the colours of two other buckets. *)
Definition crowded : ImageData :=
  mkImageData 11 2
    (map (fun n => if n =? 1 then mkPixel 12 0 0 255
                   else if n =? 2 then mkPixel 35 0 0 255
                   else if n =? 20 then mkPixel 36 0 0 255
                   else if n =? 21 then mkPixel 11 0 0 255 else white)
         (indices 22)).

(** What the first loop finds in scenario A. *)
Definition scanA : Scan := snd (removeBackground scenarioA).

(** Scenario C: a uniform image, 2 x 2, white. *)
Definition scenarioC : ImageData := mkImageData 2 2 [white; white; white; white].

(** Hosts for the sample inputs: they decode the reference ["A"] to scenario
    A, ["C"] to scenario C and nothing else, grant the drawing contexts as
    told, answer fractional offsets by dropping their fractional part, and
    encode every canvas as ["png"]. *)
Definition hostWith (context finalContext : bool) : Platform :=
  mkPlatform
    (fun url => if String.eqb url "A" then Some scenarioA
                else if String.eqb url "C" then Some scenarioC else None)
    context finalContext
    (fun w px sx sy sw sh dx dy side =>
       blit w px sx sy sw sh (Qfloor dx) (Qfloor dy) side)
    (fun _ => "png"%string).

Definition sampleHost : Platform := hostWith true true.

(** An image without pixels, as an SVG of width 0 decodes to, and a host
    that decodes every reference to it. *)
Definition emptyImage : ImageData := mkImageData 0 0 [].

Definition emptyHost : Platform :=
  mkPlatform (fun _ => Some emptyImage) true true
             (antialias sampleHost) (toDataURL sampleHost).

(** ** Notions of the specification *)

(** A channel of a Uint8ClampedArray. *)
Definition inRange (v : Z) : Prop := 0 <= v <= 255.

Definition wfPixel (p : Pixel) : Prop :=
  inRange (red p) /\ inRange (green p) /\ inRange (blue p) /\ inRange (alpha p).

(** A decoded image has positive dimensions and width * height pixels, *)
Definition wfSize (img : ImageData) : Prop :=
  0 < width img /\ 0 < height img /\
  Z.of_nat (length (data img)) = width img * height img.

(** whose channels are bytes. *)
Definition wfImage (img : ImageData) : Prop :=
  wfSize img /\ Forall wfPixel (data img).

(** The classification of pixel [p] of [img] by the first loop. *)
Definition background (img : ImageData) (p : Pixel) : bool :=
  isBackground (hasAlpha img) (red (bgPixel img)) (green (bgPixel img))
               (blue (bgPixel img)) p.

(** The Euclidean distance in RGB space, as a real number. *)
Definition euclid (r1 g1 b1 r2 g2 b2 : Z) : R :=
  sqrt (IZR (sqDist r1 g1 b1 r2 g2 b2)).

(** The accumulator the first loop builds from the foreground pixels [ps]. *)
Definition accumulate (ps : list Pixel) (acc : Accumulator) : Accumulator :=
  fold_left (fun a p => addColor (keyOf (red p) (green p) (blue p))
                                 (red p) (green p) (blue p) a) ps acc.

(** Pixel [n] of [img] is foreground. *)
Definition foregroundAt (img : ImageData) (n : nat) : Prop :=
  exists p, nth_error (data img) n = Some p /\ background img p = false.

(** The foreground pixels of [img] in scan order. *)
Definition foregroundPixels (img : ImageData) : list Pixel :=
  filter (fun p => negb (background img p)) (data img).

(** Column and row of pixel [n]. *)
Definition xOf (img : ImageData) (n : nat) : Z := Z.of_nat n mod width img.
Definition yOf (img : ImageData) (n : nat) : Z := Z.of_nat n / width img.

(** The side the specification gives the output square. *)
Definition specSquareSide (st : Scan) : Z := Qceiling (size st).

(** Two colours at Euclidean distance 45 or more. *)
Definition apart (c p : Color) : Prop := 45 * 45 <= colorDist c p.

Fixpoint pairwiseApart (l : list Color) : bool :=
  match l with
  | [] => true
  | c :: rest => forallb (fun p => 45 * 45 <=? colorDist c p) rest
                 && pairwiseApart rest
  end.

(** The Euclidean distance from the colour of pixel [p] to the colour [c]. *)
Definition distanceTo (p : Pixel) (c : Color) : R :=
  euclid (red p) (green p) (blue p) (c_r c) (c_g c) (c_b c).

(** No foreground pixel is fully transparent. *)
Definition opaqueForeground (img : ImageData) : Prop :=
  forall n p, nth_error (data img) n = Some p ->
              background img p = false -> alpha p <> 0.

(** Two colour objects with the same colour. *)
Definition sameColor (c p : Color) : bool :=
  (c_r c =? c_r p) && (c_g c =? c_g p) && (c_b c =? c_b p).

(** The fallback in the words of the specification: walk the ranking, skip a
    candidate whose colour the palette already holds, stop at 4 colours or
    at the end of the ranking. *)
Fixpoint fillSpec (ranking : list Color) (palette : list Color) : list Color :=
  match ranking with
  | [] => palette
  | c :: rest =>
      if (4 <=? length palette)%nat then palette
      else if existsb (sameColor c) palette then fillSpec rest palette
      else fillSpec rest (palette ++ [c])
  end.

Definition rgb (c : Color) : Z * Z * Z := (c_r c, c_g c, c_b c).

(** The key of the bucket a colour falls in. *)
Definition colorKey (c : Color) : Key := keyOf (c_r c) (c_g c) (c_b c).

Definition pixelKey (p : Pixel) : Key := keyOf (red p) (green p) (blue p).

Definition hasKey (k : Key) (p : Pixel) : bool := key_eqb (pixelKey p) k.

Definition sumOf (f : Pixel -> Z) (ps : list Pixel) : Z :=
  fold_right (fun p s => f p + s) 0 ps.

(** The bucket that holds exactly the pixels [ps]. *)
Definition total (ps : list Pixel) : Bucket :=
  mkBucket (sumOf red ps) (sumOf green ps) (sumOf blue ps)
           (Z.of_nat (length ps)).

(** [acc] is the accumulator of the foreground pixels [seen]: one entry per
    key met, holding the sums and the count of the pixels of that key. *)
Definition accFor (seen : list Pixel) (acc : Accumulator) : Prop :=
  NoDup (map fst acc) /\
  (forall k bk, In (k, bk) acc ->
                bk = total (filter (hasKey k) seen) /\
                filter (hasKey k) seen <> []) /\
  (forall p, In p seen -> In (pixelKey p) (map fst acc)).

(** The pixels counted by all buckets together. *)
Definition countSum (acc : Accumulator) : Z :=
  fold_right (fun e s => b_count (snd e) + s) 0 acc.

(** * The services and the page

    Numbers of the page (prices, scales, ratings) are doubles.  A parsed or
    computed number is modelled by the rational the double holds, a constant
    of the code by the rational its literal reads as (14.99 is 1499 # 100,
    for the double nearest to it).  Tests against 0 and defaults are exact on
    these; the arithmetic of the price rounds, and is a parameter. *)

(** ** types.ts *)

Record LogoConfig := mkLogoConfig {
  lc_url : option string;
  lc_x : Q; lc_y : Q; lc_scale : Q; lc_rotation : Q }.

Record AnalysisResult := mkAnalysisResult {
  ar_isPrintable : bool;
  ar_confidenceScore : Q;
  ar_reasoning : string;
  ar_suggestedColors : list string;
  ar_complexityRating : Q;
  ar_estimatedPrice : Q;
  ar_recommendedScale : Q }.

(** ** services/geminiService.ts *)

(** [s.split(sep)]: the piece before the first separator and the pieces after
    it. *)
Fixpoint split (sep : ascii) (s : string) : string * list string :=
  match s with
  | EmptyString => (EmptyString, [])
  | String c rest =>
      let '(piece, pieces) := split sep rest in
      if Ascii.eqb c sep then (EmptyString, piece :: pieces)
      else (String c piece, pieces)
  end.

(** [imageBase64.split(',')[1] || imageBase64]: a missing piece and the empty
    piece are both falsy. *)
Definition cleanBase64 (imageBase64 : string) : string :=
  match snd (split "," imageBase64) with
  | piece :: _ => if String.eqb piece "" then imageBase64 else piece
  | [] => imageBase64
  end.

(** The object [JSON.parse(response.text || '{}')] yields: each property of
    the response schema with a value of its type, or missing. *)
Record Reply := mkReply {
  rp_isPrintable : option bool;
  rp_confidenceScore : option Q;
  rp_reasoning : option string;
  rp_suggestedColors : option (list string);
  rp_complexityRating : option Q;
  rp_recommendedScale : option Q }.

(** [v ?? d], and [v || d] for arrays, which are never falsy. *)
Definition orElse {A : Type} (v : option A) (d : A) : A :=
  match v with
  | Some a => a
  | None => d
  end.

(** [v || d] for a number: 0 is falsy. *)
Definition orNumber (v : option Q) (d : Q) : Q :=
  match v with
  | Some a => if Qeq_bool a 0 then d else a
  | None => d
  end.

(** The binary64 arithmetic the price goes through, on the values of the
    doubles: the product, the sum and [Number(v.toFixed(2))].  How each of
    them rounds is left to the parameter. *)
Record Binary64 := mkBinary64 {
  fmul : Q -> Q -> Q;
  fadd : Q -> Q -> Q;
  toFixed2 : Q -> Q }.

Definition basePrice : Q := 1499 # 100.

(** The body of the [try] once the reply is parsed. *)
Definition priced (F : Binary64) (result : Reply) : AnalysisResult :=
  let complexityCost :=
    fmul F (orNumber (rp_complexityRating result) 1%Q) (150 # 100) in
  let estimatedPrice := fadd F basePrice complexityCost in
  mkAnalysisResult
    (orElse (rp_isPrintable result) false)
    (orElse (rp_confidenceScore result) 0%Q)
    (orElse (rp_reasoning result) "Analysis failed."%string)
    (orElse (rp_suggestedColors result) ["#FFFFFF"%string])
    (orNumber (rp_complexityRating result) 5%Q)
    (toFixed2 F estimatedPrice)
    (orNumber (rp_recommendedScale result) 36%Q).

(** The result of the [catch]. *)
Definition analysisFallback : AnalysisResult :=
  mkAnalysisResult false 0
    "AI Analysis could not complete. Please ensure your API key is valid."%string
    ["#CCCCCC"%string] 5 (1999 # 100) 35.

(** [generate] stands for the request and the parsing of its answer, given
    the image data sent: [None] when either throws. *)
Definition analyzeDesign (F : Binary64) (generate : string -> option Reply)
           (imageBase64 : string) : AnalysisResult :=
  match generate (cleanBase64 imageBase64) with
  | Some result => priced F result
  | None => analysisFallback
  end.

(** ** services/storageService.ts *)

Record Row := mkRow {
  row_id : string;
  row_config : LogoConfig;
  row_analysis : AnalysisResult;
  row_image_url : string;
  row_status : string }.

(** The requests sent to the store, in order. *)
Inductive Call :=
| Upload (fileName : string) (blob : string)
| Insert (row : Row).

(** The store: [fetchBlob] is [base64ToBlob] ([None] when [fetch] or
    [blob()] rejects); [upload] and [insert] tell whether the request came
    back without error. *)
Record Backend := mkBackend {
  fetchBlob : string -> option string;
  upload : string -> string -> bool;
  getPublicUrl : string -> string;
  insert : Row -> bool }.

(** What a call of [saveDesignToDatabase] leaves: the value it resolves with,
    the requests it sent, and whether the [catch] logged an error. *)
Record Saved := mkSaved {
  sv_id : string; sv_calls : list Call; sv_logged : bool }.

(** [if (config.url)]: [null] and the empty string are falsy. *)
Definition truthyUrl (url : option string) : option string :=
  match url with
  | Some u => if String.eqb u "" then None else Some u
  | None => None
  end.

(** [random] is [Math.random().toString(36).substr(2, 6).toUpperCase()]. *)
Definition saveDesignToDatabase (B : Backend) (random : string)
           (config : LogoConfig) (analysis : AnalysisResult) : Saved :=
  let designId := ("PF-" ++ random)%string in
  let row publicImageUrl :=
    mkRow designId config analysis publicImageUrl "pending_payment"%string in
  match truthyUrl (lc_url config) with
  | Some url =>
      match fetchBlob B url with
      | None => mkSaved designId [] true
      | Some blob =>
          let fileName := (designId ++ ".png")%string in
          if upload B fileName blob
          then mkSaved designId
                 [Upload fileName blob; Insert (row (getPublicUrl B fileName))]
                 (negb (insert B (row (getPublicUrl B fileName))))
          else mkSaved designId [Upload fileName blob] true
      end
  | None => mkSaved designId [Insert (row ""%string)]
                    (negb (insert B (row ""%string)))
  end.

(** ** App.tsx *)

(** The chosen file: its size in bytes and what [readAsDataURL] hands to
    [reader.onload] ([None] when the read fails: no handler is set for
    that). *)
Record File := mkFile { f_size : Z; f_result : option string }.

Record AppState := mkAppState {
  logoConfig : LogoConfig;
  activeStep : Z;
  analysis : option AnalysisResult;
  fileError : option string;
  processingStatus : string }.

(** The state once [handleFileUpload] and the handlers it sets have run.
    While [processLogo] is awaited the status text is the one set before the
    call, and stays so when the promise stays pending. *)
Definition handleFileUpload (P : Platform) (F : Binary64)
           (generate : string -> option Reply)
           (file : option File) (st : AppState) : AppState :=
  match file with
  | None => st
  | Some f =>
      if f_size f >? 5 * 1024 * 1024
      then mkAppState (logoConfig st) (activeStep st) (analysis st)
                      (Some "Datei zu groß. Maximal 5MB."%string)
                      (processingStatus st)
      else
        match f_result f with
        | None => mkAppState (logoConfig st) 2 (analysis st) None
                             (processingStatus st)
        | Some rawResult =>
            match processLogo P rawResult with
            | Resolved processedImage =>
                let aiResult := analyzeDesign F generate processedImage in
                if ar_isPrintable aiResult
                then mkAppState
                       (mkLogoConfig (Some processedImage) 0 0
                          (if Qeq_bool (ar_recommendedScale aiResult) 0 then 36%Q
                           else ar_recommendedScale aiResult) 0)
                       3 (Some aiResult) None ""%string
                else mkAppState
                       (mkLogoConfig (Some processedImage) 0 0 30 0)
                       2 (Some aiResult) None ""%string
            | Rejected _ =>
                mkAppState (logoConfig st) 1 (analysis st)
                           (Some "Systemfehler bei der Analyse."%string) ""%string
            | Pending =>
                mkAppState (logoConfig st) 2 (analysis st) None
                           "Hintergrund wird entfernt..."%string
            end
        end
  end.

(** [s] holds the character [c]. *)
Fixpoint inString (c : ascii) (s : string) : bool :=
  match s with
  | EmptyString => false
  | String a rest => Ascii.eqb a c || inString c rest
  end.

(** The state [App] starts in. *)
Definition initialState : AppState :=
  mkAppState (mkLogoConfig None 0 0 30 0) 1 None None ""%string.

(** A service that never answers. *)
Definition noReply : string -> option Reply := fun _ => None.

(** An arithmetic for the sample runs: no rounding at all. *)
Definition unrounded : Binary64 := mkBinary64 Qmult Qplus (fun v => v).

(** * Verification *)

(** ** Distances *)

Lemma sqDist_nonneg r1 g1 b1 r2 g2 b2 : 0 <= sqDist r1 g1 b1 r2 g2 b2.
Proof.
  unfold sqDist.
  pose proof (Z.square_nonneg (r1 - r2)).
  pose proof (Z.square_nonneg (g1 - g2)).
  pose proof (Z.square_nonneg (b1 - b2)).
  lia.
Qed.

Lemma sqDist_sym r1 g1 b1 r2 g2 b2 :
  sqDist r1 g1 b1 r2 g2 b2 = sqDist r2 g2 b2 r1 g1 b1.
Proof. unfold sqDist. ring. Qed.

(** The comparison of a root with a whole threshold is the comparison of
    the squares: what the model's [<?] on [sqDist] stands for. *)
Lemma sqrt_lt_threshold (s t : Z) :
  0 <= s -> 0 <= t -> ((sqrt (IZR s) < IZR t)%R <-> s < t * t).
Proof.
  intros Hs Ht.
  assert (Hsq : sqrt (IZR (t * t)) = IZR t).
  { rewrite mult_IZR. apply sqrt_square. now apply IZR_le. }
  rewrite <- Hsq. split; intro H.
  - apply lt_IZR. apply sqrt_lt_0_alt. exact H.
  - apply sqrt_lt_1_alt. split.
    + now apply IZR_le.
    + now apply IZR_lt.
Qed.

Lemma sqrt_le_iff (s t : Z) :
  0 <= s -> 0 <= t -> ((sqrt (IZR s) <= sqrt (IZR t))%R <-> s <= t).
Proof.
  intros Hs Ht. split; intro H.
  - apply le_IZR. apply sqrt_le_0; try (now apply IZR_le). exact H.
  - apply sqrt_le_1_alt. now apply IZR_le.
Qed.

Lemma euclid_lt r1 g1 b1 r2 g2 b2 (t : Z) :
  0 <= t ->
  ((euclid r1 g1 b1 r2 g2 b2 < IZR t)%R <-> sqDist r1 g1 b1 r2 g2 b2 < t * t).
Proof. intro Ht. apply sqrt_lt_threshold; [apply sqDist_nonneg | exact Ht]. Qed.

Lemma euclid_ge r1 g1 b1 r2 g2 b2 (t : Z) :
  0 <= t ->
  ((IZR t <= euclid r1 g1 b1 r2 g2 b2)%R <-> t * t <= sqDist r1 g1 b1 r2 g2 b2).
Proof.
  intro Ht. pose proof (euclid_lt r1 g1 b1 r2 g2 b2 t Ht) as [H1 H2].
  split; intro H.
  - destruct (Z_lt_le_dec (sqDist r1 g1 b1 r2 g2 b2) (t * t)) as [Hlt|Hle];
      [|exact Hle].
    apply H2 in Hlt. exfalso. apply (Rlt_irrefl (IZR t)).
    eapply Rle_lt_trans; eassumption.
  - destruct (Rle_lt_dec (IZR t) (euclid r1 g1 b1 r2 g2 b2)) as [Hle|Hlt];
      [exact Hle|].
    apply H1 in Hlt. lia.
Qed.

(** ** The first loop *)

Section FirstLoop.

Variables (w : Z) (ha : bool) (bgR bgG bgB : Z).

Let scan := scanFrom w ha bgR bgG bgB.
Let bgd := isBackground ha bgR bgG bgB.

Lemma scanFrom_cons n p rest st :
  scan n (p :: rest) st =
  if bgd p
  then (setAlpha p 0 :: fst (scan (n + 1) rest st), snd (scan (n + 1) rest st))
  else (p :: fst (scan (n + 1) rest (collect w n p st)),
        snd (scan (n + 1) rest (collect w n p st))).
Proof.
  unfold scan, bgd; simpl.
  destruct (isBackground ha bgR bgG bgB p).
  - destruct (scanFrom w ha bgR bgG bgB (n + 1) rest st); reflexivity.
  - destruct (scanFrom w ha bgR bgG bgB (n + 1) rest (collect w n p st));
      reflexivity.
Qed.

Lemma scanFrom_pixels px : forall n st,
  fst (scan n px st) = map (fun p => if bgd p then setAlpha p 0 else p) px.
Proof.
  induction px as [|p rest IH]; intros n st.
  - reflexivity.
  - rewrite scanFrom_cons. simpl map.
    destruct (bgd p); simpl; now rewrite IH.
Qed.

Lemma scanFrom_hasContent px : forall n st,
  hasContent (snd (scan n px st)) =
  hasContent st || existsb (fun p => negb (bgd p)) px.
Proof.
  induction px as [|p rest IH]; intros n st.
  - simpl. now rewrite orb_false_r.
  - rewrite scanFrom_cons. simpl existsb.
    destruct (bgd p); simpl; rewrite IH; simpl.
    + reflexivity.
    + now rewrite orb_true_r.
Qed.

End FirstLoop.

Lemma setAlpha_zero p : setAlpha p 0 = mkPixel (red p) (green p) (blue p) 0.
Proof. reflexivity. Qed.

Lemma removeBackground_pixels img :
  fst (removeBackground img) =
  map (fun p => if background img p then setAlpha p 0 else p) (data img).
Proof. unfold removeBackground. apply scanFrom_pixels. Qed.

Lemma removeBackground_hasContent img :
  hasContent (snd (removeBackground img)) =
  existsb (fun p => negb (background img p)) (data img).
Proof. unfold removeBackground. now rewrite scanFrom_hasContent. Qed.

Lemma clamp8_id v : 0 <= v <= 255 -> clamp8 v = v.
Proof. unfold clamp8. lia. Qed.

Lemma removeBackground_nth img n p :
  nth_error (data img) n = Some p ->
  nth_error (fst (removeBackground img)) n =
  Some (if background img p then setAlpha p 0 else p).
Proof.
  intro Hn. rewrite removeBackground_pixels, nth_error_map, Hn. reflexivity.
Qed.

(** ** C6: the background rule *)

(** C6.  With the reference pixel [data[0..3]]: when its alpha is 0 a pixel
    is background exactly when its own alpha is below 20; otherwise exactly
    when its Euclidean RGB distance to the reference colour is below 40.
    The first loop leaves a background pixel with alpha 0 (and its colour),
    and a foreground pixel as it was. *)
Theorem classification_rule (img : ImageData) (n : nat) (p : Pixel) :
  nth_error (data img) n = Some p ->
  let bg := bgPixel img in
  (alpha bg = 0 -> (background img p = true <-> alpha p < 20)) /\
  (alpha bg <> 0 ->
   (background img p = true <->
    (euclid (red p) (green p) (blue p) (red bg) (green bg) (blue bg) < 40)%R)) /\
  (background img p = true ->
   nth_error (fst (removeBackground img)) n
   = Some (mkPixel (red p) (green p) (blue p) 0)) /\
  (background img p = false ->
   nth_error (fst (removeBackground img)) n = Some p).
Proof.
  intros Hn bg. rewrite (removeBackground_nth img n p Hn).
  unfold background, isBackground, hasAlpha. fold bg.
  split; [|split; [|split]].
  - intro H. rewrite (proj2 (Z.eqb_eq _ _) H). simpl. apply Z.ltb_lt.
  - intro H. rewrite (proj2 (Z.eqb_neq _ _) H). simpl.
    rewrite Z.ltb_lt. symmetry. apply (euclid_lt _ _ _ _ _ _ 40). lia.
  - intro Hb. now rewrite Hb.
  - intro Hb. now rewrite Hb.
Qed.

(** ** The accumulator and the size of the palette *)

Lemma scanFrom_accumulator w ha bgR bgG bgB px : forall n st,
  colorAccumulator (snd (scanFrom w ha bgR bgG bgB n px st)) =
  accumulate (filter (fun p => negb (isBackground ha bgR bgG bgB p)) px)
             (colorAccumulator st).
Proof.
  induction px as [|p rest IH]; intros n st.
  - reflexivity.
  - rewrite scanFrom_cons. simpl filter.
    destruct (isBackground ha bgR bgG bgB p); simpl; rewrite IH; reflexivity.
Qed.

Lemma removeBackground_accumulator img :
  colorAccumulator (snd (removeBackground img)) =
  accumulate (filter (fun p => negb (background img p)) (data img)) [].
Proof. unfold removeBackground. now rewrite scanFrom_accumulator. Qed.

Lemma addColor_nonempty key r g b acc : addColor key r g b acc <> [].
Proof.
  destruct acc as [|[k bk] rest]; simpl; [discriminate|].
  destruct (key_eqb k key); discriminate.
Qed.

Lemma accumulate_cons p ps acc :
  accumulate (p :: ps) acc =
  accumulate ps (addColor (keyOf (red p) (green p) (blue p))
                          (red p) (green p) (blue p) acc).
Proof. reflexivity. Qed.

Lemma accumulate_nonempty ps : forall acc, acc <> [] -> accumulate ps acc <> [].
Proof.
  induction ps as [|p rest IH]; intros acc Hacc.
  - exact Hacc.
  - rewrite accumulate_cons. apply IH, addColor_nonempty.
Qed.

Lemma insertBucket_perm x l : Permutation (insertBucket x l) (x :: l).
Proof.
  induction l as [|y ys IH]; simpl.
  - apply Permutation_refl.
  - destruct (b_count y <=? b_count x).
    + apply Permutation_refl.
    + eapply perm_trans; [apply perm_skip, IH | apply perm_swap].
Qed.

Lemma sortBuckets_perm l : Permutation (sortBuckets l) l.
Proof.
  induction l as [|x xs IH]; simpl.
  - apply perm_nil.
  - eapply perm_trans; [apply insertBucket_perm | now apply perm_skip].
Qed.

Lemma mapIndexed_length bs : forall i, length (mapIndexed i bs) = length bs.
Proof. induction bs as [|bk rest IH]; intro i; simpl; [|rewrite IH]; reflexivity. Qed.

Lemma candidates_length acc : length (candidates acc) = length acc.
Proof.
  unfold candidates, sortedBuckets. rewrite mapIndexed_length.
  rewrite (Permutation_length (sortBuckets_perm (map snd acc))).
  apply length_map.
Qed.

Lemma hasContent_accumulator img :
  hasContent (snd (removeBackground img)) = true ->
  colorAccumulator (snd (removeBackground img)) <> [].
Proof.
  rewrite removeBackground_hasContent, removeBackground_accumulator.
  intro H. apply existsb_exists in H as [p [Hin Hfg]].
  assert (Hf : In p (filter (fun p => negb (background img p)) (data img)))
    by (apply filter_In; auto).
  destruct (filter (fun p => negb (background img p)) (data img)) as [|q l];
    [contradiction|].
  rewrite accumulate_cons. apply accumulate_nonempty, addColor_nonempty.
Qed.

Lemma hasContent_candidates img :
  hasContent (snd (removeBackground img)) = true ->
  candidates (colorAccumulator (snd (removeBackground img))) <> [].
Proof.
  intros H Hnil. apply hasContent_accumulator in H. apply H.
  apply length_zero_iff_nil. rewrite <- candidates_length, Hnil. reflexivity.
Qed.

Lemma greedy_extends cands : forall pal, exists ext, greedy cands pal = pal ++ ext.
Proof.
  induction cands as [|c rest IH]; intro pal; cbn [greedy].
  - exists []. now rewrite app_nil_r.
  - destruct (4 <=? length pal)%nat.
    + exists []. now rewrite app_nil_r.
    + destruct (isDistinct c pal).
      * destruct (IH (pal ++ [c])) as [ext E]. exists (c :: ext).
        rewrite E, <- app_assoc. reflexivity.
      * apply IH.
Qed.

Lemma fill_extends cands : forall pal, exists ext, fill cands pal = pal ++ ext.
Proof.
  induction cands as [|c rest IH]; intro pal; cbn [fill].
  - exists []. now rewrite app_nil_r.
  - destruct (length pal <? 4)%nat.
    + destruct (includes pal c).
      * apply IH.
      * destruct (IH (pal ++ [c])) as [ext E]. exists (c :: ext).
        rewrite E, <- app_assoc. reflexivity.
    + exists []. now rewrite app_nil_r.
Qed.

Lemma greedy_length cands : forall pal,
  (length pal <= 4 -> length (greedy cands pal) <= 4)%nat.
Proof.
  induction cands as [|c rest IH]; intros pal H; cbn [greedy].
  - exact H.
  - destruct (4 <=? length pal)%nat eqn:E; [exact H|].
    apply Nat.leb_gt in E.
    destruct (isDistinct c pal); apply IH.
    + rewrite length_app. simpl. lia.
    + exact H.
Qed.

Lemma fill_length cands : forall pal,
  (length pal <= 4 -> length (fill cands pal) <= 4)%nat.
Proof.
  induction cands as [|c rest IH]; intros pal H; cbn [fill].
  - exact H.
  - destruct (length pal <? 4)%nat eqn:E; [|exact H].
    apply Nat.ltb_lt in E.
    destruct (includes pal c); apply IH.
    + exact H.
    + rewrite length_app. simpl. lia.
Qed.

Lemma greedy_first c rest : exists ext, greedy (c :: rest) [] = c :: ext.
Proof.
  change (greedy (c :: rest) []) with (greedy rest [c]).
  destruct (greedy_extends rest [c]) as [ext E]. now exists ext.
Qed.

Lemma selectPalette_size cands :
  cands <> [] -> (1 <= length (selectPalette cands) <= 4)%nat.
Proof.
  intro Hne. destruct cands as [|c rest]; [contradiction|].
  unfold selectPalette.
  destruct (greedy_first c rest) as [ext E].
  pose proof (greedy_length (c :: rest) [] ltac:(simpl; lia)) as Hg.
  destruct ((length (greedy (c :: rest) []) <? 4)%nat && (0 <? length (c :: rest))%nat).
  - split.
    + destruct (fill_extends (c :: rest) (greedy (c :: rest) [])) as [e2 E2].
      rewrite E2, E. simpl. lia.
    + now apply fill_length.
  - split; [rewrite E; simpl; lia | exact Hg].
Qed.

Lemma palette_nonempty img :
  hasContent (snd (removeBackground img)) = true -> palette img <> [].
Proof.
  intros H Hnil. apply hasContent_candidates in H.
  pose proof (selectPalette_size _ H) as [H1 _].
  unfold palette in Hnil. rewrite Hnil in H1. simpl in H1. lia.
Qed.

(** ** C5: failures resolve with the input *)

(** Reading the pixels succeeds when neither dimension is 0. *)
Lemma readable_test img :
  width img <> 0 -> height img <> 0 ->
  (width img =? 0) || (height img =? 0) = false.
Proof.
  intros Hw Hh. apply orb_false_iff. split; now apply Z.eqb_neq.
Qed.

(** The promise stays pending exactly when the image decodes with a width or
    a height of 0 and the drawing context is granted. *)
Lemma processLogo_pending P imageUrl :
  processLogo P imageUrl = Pending <->
  exists img, loadImage P imageUrl = Some img /\ getContext P = true /\
              (width img = 0 \/ height img = 0).
Proof.
  unfold processLogo, onload. split.
  - destruct (loadImage P imageUrl) as [img|]; [|discriminate].
    destruct (getContext P); [|discriminate]. cbn [negb].
    destruct ((width img =? 0) || (height img =? 0)) eqn:E.
    + intros _. exists img. split; [reflexivity|]. split; [reflexivity|].
      apply orb_true_iff in E. now rewrite !Z.eqb_eq in E.
    + destruct (hasContent (snd (removeBackground img))); [|discriminate].
      destruct (getFinalContext P); discriminate.
  - intros [img [-> [-> Hz]]]. cbn [negb].
    replace ((width img =? 0) || (height img =? 0)) with true; [reflexivity|].
    symmetry. apply orb_true_iff. now rewrite !Z.eqb_eq.
Qed.

Lemma processLogo_not_rejected P imageUrl reason :
  processLogo P imageUrl <> Rejected reason.
Proof.
  unfold processLogo, onload.
  destruct (loadImage P imageUrl) as [img|]; [|discriminate].
  destruct (getContext P); [|discriminate]. cbn [negb].
  destruct ((width img =? 0) || (height img =? 0)); [discriminate|].
  destruct (hasContent (snd (removeBackground img))); [|discriminate].
  destruct (getFinalContext P); discriminate.
Qed.

(** When every image the reference decodes to can be read, the promise is
    resolved. *)
Lemma processLogo_resolves P imageUrl :
  (forall img, loadImage P imageUrl = Some img ->
               width img <> 0 /\ height img <> 0) ->
  exists value, processLogo P imageUrl = Resolved value.
Proof.
  intro Hr. unfold processLogo, onload.
  destruct (loadImage P imageUrl) as [img|]; [|now eexists].
  destruct (Hr img eq_refl) as [Hw Hh].
  destruct (getContext P); [|now eexists]. cbn [negb].
  rewrite (readable_test img Hw Hh).
  destruct (hasContent (snd (removeBackground img))); [|now eexists].
  destruct (getFinalContext P); now eexists.
Qed.



(** ** C1: alpha after the second loop *)



(** ** What the accumulator holds *)

Lemma key_eqb_eq k1 k2 : key_eqb k1 k2 = true <-> k1 = k2.
Proof.
  destruct k1 as [[r1 g1] b1], k2 as [[r2 g2] b2]. unfold key_eqb.
  rewrite !andb_true_iff, !Z.eqb_eq. split.
  - intros [[-> ->] ->]. reflexivity.
  - intro H. inversion H. auto.
Qed.

Lemma key_eqb_neq k1 k2 : key_eqb k1 k2 = false <-> k1 <> k2.
Proof.
  rewrite <- key_eqb_eq. destruct (key_eqb k1 k2); split; congruence.
Qed.

Lemma key_eq_dec (k1 k2 : Key) : {k1 = k2} + {k1 <> k2}.
Proof.
  destruct (key_eqb k1 k2) eqn:E.
  - left. now apply key_eqb_eq.
  - right. now apply key_eqb_neq.
Qed.

Lemma key_eqb_refl k : key_eqb k k = true.
Proof. now apply key_eqb_eq. Qed.

Lemma sumOf_snoc f ps p : sumOf f (ps ++ [p]) = sumOf f ps + f p.
Proof.
  induction ps as [|q rest IH]; simpl.
  - lia.
  - change (fold_right (fun p s => f p + s) 0 (rest ++ [p]))
      with (sumOf f (rest ++ [p])).
    rewrite IH. unfold sumOf. lia.
Qed.

Lemma total_snoc ps p :
  total (ps ++ [p]) =
  mkBucket (b_r (total ps) + red p) (b_g (total ps) + green p)
           (b_b (total ps) + blue p) (b_count (total ps) + 1).
Proof.
  unfold total. rewrite !sumOf_snoc, length_app. simpl.
  f_equal. lia.
Qed.

Lemma addColor_keys_old key r g b acc :
  In key (map fst acc) -> map fst (addColor key r g b acc) = map fst acc.
Proof.
  induction acc as [|[k bk] rest IH]; simpl; intro H; [contradiction|].
  destruct (key_eqb k key) eqn:E; simpl.
  - reflexivity.
  - f_equal. apply IH. destruct H as [H|H]; [|exact H].
    apply key_eqb_neq in E. contradiction.
Qed.

Lemma addColor_keys_new key r g b acc :
  ~ In key (map fst acc) ->
  map fst (addColor key r g b acc) = map fst acc ++ [key].
Proof.
  induction acc as [|[k bk] rest IH]; simpl; intro H; [reflexivity|].
  destruct (key_eqb k key) eqn:E; simpl.
  - apply key_eqb_eq in E. exfalso. apply H. now left.
  - f_equal. apply IH. intro Hin. apply H. now right.
Qed.

Lemma addColor_In key r g b acc k bk :
  NoDup (map fst acc) ->
  In (k, bk) (addColor key r g b acc) ->
  (k <> key /\ In (k, bk) acc) \/
  (k = key /\
   ((exists bk0, In (key, bk0) acc /\
                 bk = mkBucket (b_r bk0 + r) (b_g bk0 + g) (b_b bk0 + b)
                               (b_count bk0 + 1)) \/
    (~ In key (map fst acc) /\ bk = mkBucket (0 + r) (0 + g) (0 + b) (0 + 1)))).
Proof.
  induction acc as [|[k0 bk0] rest IH]; simpl; intros Hnd Hin.
  - destruct Hin as [Hin|[]]. inversion Hin; subst.
    right. split; [reflexivity|]. right. split; [tauto | reflexivity].
  - inversion Hnd as [|? ? Hnot Hnd']; subst.
    destruct (key_eqb k0 key) eqn:E.
    + apply key_eqb_eq in E. subst k0. destruct Hin as [Hin|Hin].
      * inversion Hin; subst. right. split; [reflexivity|]. left.
        exists bk0. split; [now left | reflexivity].
      * left. split; [|now right]. intro; subst k. apply Hnot.
        apply (in_map fst) in Hin. exact Hin.
    + apply key_eqb_neq in E. destruct Hin as [Hin|Hin].
      * inversion Hin; subst. left. split; [exact E | now left].
      * destruct (IH Hnd' Hin) as [[Hne Hi]|[He [[b0 [Hi Hb]]|[Hn Hb]]]].
        -- left. split; [exact Hne | now right].
        -- right. split; [exact He|]. left. exists b0. split; [now right | exact Hb].
        -- right. split; [exact He|]. right. split; [|exact Hb].
           intros [H|H]; [now apply E | now apply Hn].
Qed.

Lemma filter_hasKey_snoc k seen p :
  filter (hasKey k) (seen ++ [p]) =
  if key_eqb (pixelKey p) k then filter (hasKey k) seen ++ [p]
  else filter (hasKey k) seen.
Proof.
  rewrite filter_app. cbn [filter]. fold (hasKey k p).
  destruct (hasKey k p); [reflexivity | apply app_nil_r].
Qed.

Lemma accFor_nil : accFor [] [].
Proof.
  split; [constructor|]. split; [intros k bk []|intros p []].
Qed.

Lemma accFor_step seen acc p :
  accFor seen acc ->
  accFor (seen ++ [p]) (addColor (pixelKey p) (red p) (green p) (blue p) acc).
Proof.
  intros [Hnd [Hbk Hkeys]].
  destruct (in_dec key_eq_dec (pixelKey p) (map fst acc)) as [Hold|Hnew].
  - split; [|split].
    + now rewrite addColor_keys_old.
    + intros k bk Hin. rewrite filter_hasKey_snoc.
      destruct (addColor_In _ _ _ _ _ _ _ Hnd Hin)
        as [[Hne Hi]|[He [[b0 [Hi Hb]]|[Hn Hb]]]].
      * rewrite (proj2 (key_eqb_neq _ _)) by congruence. now apply Hbk.
      * subst k. rewrite key_eqb_refl. destruct (Hbk _ _ Hi) as [Ht _].
        split; [|intro Hnil; now apply app_eq_nil in Hnil as [_ ?]].
        rewrite total_snoc, <- Ht. exact Hb.
      * contradiction.
    + intros q Hq. rewrite addColor_keys_old by exact Hold.
      apply in_app_or in Hq as [Hq|[Hq|[]]]; [now apply Hkeys | now subst q].
  - split; [|split].
    + rewrite addColor_keys_new by exact Hnew.
      apply NoDup_app; [exact Hnd | repeat constructor; tauto |].
      intros x Hx [Hx'|[]]. subst x. contradiction.
    + intros k bk Hin. rewrite filter_hasKey_snoc.
      destruct (addColor_In _ _ _ _ _ _ _ Hnd Hin)
        as [[Hne Hi]|[He [[b0 [Hi Hb]]|[Hn Hb]]]].
      * rewrite (proj2 (key_eqb_neq _ _)) by congruence. now apply Hbk.
      * exfalso. apply Hnew. apply (in_map fst) in Hi. exact Hi.
      * subst k. rewrite key_eqb_refl.
        assert (Hnone : filter (hasKey (pixelKey p)) seen = []).
        { destruct (filter (hasKey (pixelKey p)) seen) as [|q l] eqn:Ef;
            [reflexivity|].
          assert (Hq : In q (filter (hasKey (pixelKey p)) seen))
            by (rewrite Ef; now left).
          apply filter_In in Hq as [Hq Hk]. apply key_eqb_eq in Hk.
          exfalso. apply Hnew. rewrite <- Hk. now apply Hkeys. }
        rewrite Hnone. split; [|discriminate].
        subst bk. unfold total. simpl. f_equal; lia.
    + intros q Hq. rewrite addColor_keys_new by exact Hnew.
      apply in_or_app. apply in_app_or in Hq as [Hq|[Hq|[]]].
      * left. now apply Hkeys.
      * right. left. now subst q.
Qed.

Lemma accumulate_accFor ps : forall seen acc,
  accFor seen acc -> accFor (seen ++ ps) (accumulate ps acc).
Proof.
  induction ps as [|p rest IH]; intros seen acc H.
  - now rewrite app_nil_r.
  - rewrite accumulate_cons.
    replace (seen ++ p :: rest) with ((seen ++ [p]) ++ rest)
      by (rewrite <- app_assoc; reflexivity).
    apply IH. now apply accFor_step.
Qed.

(** The foreground pixels of an image, in scan order. *)
Lemma removeBackground_accFor img :
  accFor (filter (fun p => negb (background img p)) (data img))
         (colorAccumulator (snd (removeBackground img))).
Proof.
  rewrite removeBackground_accumulator.
  apply (accumulate_accFor _ [] []), accFor_nil.
Qed.

(** ** The bounding box *)

(** A foreground pixel found at offset [j] of the rest of the buffer is at
    offset [S j] of the buffer. *)
Ltac later_pixel j p Hv :=
  right; exists (S j), p; repeat split; try assumption;
  match goal with
  | |- context [?n + Z.of_nat (S j)] =>
      replace (n + Z.of_nat (S j)) with (n + 1 + Z.of_nat j) by lia
  end; exact Hv.

Section Bounds.

Variables (w : Z) (ha : bool) (bgR bgG bgB : Z).

Lemma collect_bounds n p st :
  minX (collect w n p st) = Z.min (n mod w) (minX st) /\
  maxX (collect w n p st) = Z.max (n mod w) (maxX st) /\
  minY (collect w n p st) = Z.min (n / w) (minY st) /\
  maxY (collect w n p st) = Z.max (n / w) (maxY st).
Proof.
  unfold collect; simpl.
  destruct (Z.ltb_spec (n mod w) (minX st)), (Z.ltb_spec (n / w) (minY st)),
    (Z.gtb_spec (n mod w) (maxX st)), (Z.gtb_spec (n / w) (maxY st)); lia.
Qed.

(** The box only grows. *)
Lemma scanFrom_box_grows px : forall n st,
  minX (snd (scanFrom w ha bgR bgG bgB n px st)) <= minX st /\
  maxX st <= maxX (snd (scanFrom w ha bgR bgG bgB n px st)) /\
  minY (snd (scanFrom w ha bgR bgG bgB n px st)) <= minY st /\
  maxY st <= maxY (snd (scanFrom w ha bgR bgG bgB n px st)).
Proof.
  induction px as [|p rest IH]; intros n st.
  - simpl. lia.
  - rewrite scanFrom_cons. destruct (isBackground ha bgR bgG bgB p); cbn [snd].
    + apply IH.
    + pose proof (IH (n + 1) (collect w n p st)).
      pose proof (collect_bounds n p st). lia.
Qed.

(** Every foreground pixel lies in the box. *)
Lemma scanFrom_box_contains px : forall n st j p,
  nth_error px j = Some p -> isBackground ha bgR bgG bgB p = false ->
  minX (snd (scanFrom w ha bgR bgG bgB n px st))
  <= (n + Z.of_nat j) mod w
  <= maxX (snd (scanFrom w ha bgR bgG bgB n px st)) /\
  minY (snd (scanFrom w ha bgR bgG bgB n px st))
  <= (n + Z.of_nat j) / w
  <= maxY (snd (scanFrom w ha bgR bgG bgB n px st)).
Proof.
  induction px as [|q rest IH]; intros n st j p Hj Hfg.
  - destruct j; discriminate.
  - rewrite scanFrom_cons. destruct j as [|j]; simpl in Hj.
    + inversion Hj; subst q. rewrite Hfg. cbn [snd].
      pose proof (scanFrom_box_grows rest (n + 1) (collect w n p st)).
      pose proof (collect_bounds n p st).
      replace (n + Z.of_nat 0) with n by lia. lia.
    + replace (n + Z.of_nat (S j)) with (n + 1 + Z.of_nat j) by lia.
      destruct (isBackground ha bgR bgG bgB q); cbn [snd];
        now apply (IH _ _ j p).
Qed.

(** Each edge of the box is its initial value or the coordinate of a
    foreground pixel. *)
Lemma scanFrom_box_attained px : forall n st,
  let st' := snd (scanFrom w ha bgR bgG bgB n px st) in
  let hit (f : Z -> Z) (v : Z) :=
    exists j p, nth_error px j = Some p /\
                isBackground ha bgR bgG bgB p = false /\
                f (n + Z.of_nat j) = v in
  (minX st' = minX st \/ hit (fun i => i mod w) (minX st')) /\
  (maxX st' = maxX st \/ hit (fun i => i mod w) (maxX st')) /\
  (minY st' = minY st \/ hit (fun i => i / w) (minY st')) /\
  (maxY st' = maxY st \/ hit (fun i => i / w) (maxY st')).
Proof.
  induction px as [|q rest IH]; intros n st; cbv zeta.
  - simpl. tauto.
  - rewrite scanFrom_cons.
    destruct (isBackground ha bgR bgG bgB q) eqn:Eq; cbn [snd].
    + specialize (IH (n + 1) st). cbv zeta in IH.
      destruct IH as [H1 [H2 [H3 H4]]].
      split; [|split; [|split]].
      * destruct H1 as [H|[j [p [Hj [Hp Hv]]]]]; [now left | later_pixel j p Hv].
      * destruct H2 as [H|[j [p [Hj [Hp Hv]]]]]; [now left | later_pixel j p Hv].
      * destruct H3 as [H|[j [p [Hj [Hp Hv]]]]]; [now left | later_pixel j p Hv].
      * destruct H4 as [H|[j [p [Hj [Hp Hv]]]]]; [now left | later_pixel j p Hv].
    + specialize (IH (n + 1) (collect w n q st)). cbv zeta in IH.
      destruct IH as [H1 [H2 [H3 H4]]].
      pose proof (collect_bounds n q st) as [C1 [C2 [C3 C4]]].
      assert (Hhere : forall f : Z -> Z, exists j p,
                 nth_error (q :: rest) j = Some p /\
                 isBackground ha bgR bgG bgB p = false /\
                 f (n + Z.of_nat j) = f n).
      { intro f. exists 0%nat, q. repeat split; try assumption.
        f_equal. lia. }
      split; [|split; [|split]].
      * destruct H1 as [H|[j [p [Hj [Hp Hv]]]]]; [|later_pixel j p Hv].
        rewrite H, C1. destruct (Z.min_spec (n mod w) (minX st)) as [[_ E]|[_ E]];
          rewrite E; [right; apply (Hhere (fun i => i mod w)) | now left].
      * destruct H2 as [H|[j [p [Hj [Hp Hv]]]]]; [|later_pixel j p Hv].
        rewrite H, C2. destruct (Z.max_spec (n mod w) (maxX st)) as [[_ E]|[_ E]];
          rewrite E; [now left | right; apply (Hhere (fun i => i mod w))].
      * destruct H3 as [H|[j [p [Hj [Hp Hv]]]]]; [|later_pixel j p Hv].
        rewrite H, C3. destruct (Z.min_spec (n / w) (minY st)) as [[_ E]|[_ E]];
          rewrite E; [right; apply (Hhere (fun i => i / w)) | now left].
      * destruct H4 as [H|[j [p [Hj [Hp Hv]]]]]; [|later_pixel j p Hv].
        rewrite H, C4. destruct (Z.max_spec (n / w) (maxY st)) as [[_ E]|[_ E]];
          rewrite E; [now left | right; apply (Hhere (fun i => i / w))].
Qed.

End Bounds.

Lemma hasContent_foregroundAt img :
  hasContent (snd (removeBackground img)) = true <-> exists n, foregroundAt img n.
Proof.
  rewrite removeBackground_hasContent, existsb_exists. split.
  - intros [p [Hin Hfg]]. apply In_nth_error in Hin as [n Hn].
    exists n, p. split; [exact Hn|]. now apply negb_true_iff.
  - intros [n [p [Hn Hfg]]]. exists p. split.
    + eapply nth_error_In; eassumption.
    + now apply negb_true_iff.
Qed.

Lemma box_contains img n :
  foregroundAt img n ->
  let st := snd (removeBackground img) in
  minX st <= xOf img n <= maxX st /\ minY st <= yOf img n <= maxY st.
Proof.
  intros [p [Hn Hfg]]. cbv zeta. unfold removeBackground, xOf, yOf.
  exact (scanFrom_box_contains _ _ _ _ _ _ 0 _ n p Hn Hfg).
Qed.

Lemma index_in_image img n :
  wfSize img -> (n < length (data img))%nat ->
  0 <= xOf img n < width img /\ 0 <= yOf img n < height img.
Proof.
  intros [Hw [Hh Hlen]] Hn. unfold xOf, yOf. split.
  - apply Z.mod_pos_bound. exact Hw.
  - split.
    + apply Z.div_pos; lia.
    + apply Z.div_lt_upper_bound; lia.
Qed.

(** With a foreground pixel in a decoded image, the box is the bounding box
    of the foreground pixels: each edge is met by one of them. *)
Lemma box_tight img :
  wfSize img -> hasContent (snd (removeBackground img)) = true ->
  let st := snd (removeBackground img) in
  (exists n, foregroundAt img n /\ xOf img n = minX st) /\
  (exists n, foregroundAt img n /\ xOf img n = maxX st) /\
  (exists n, foregroundAt img n /\ yOf img n = minY st) /\
  (exists n, foregroundAt img n /\ yOf img n = maxY st).
Proof.
  intros Hwf Hc. cbv zeta.
  apply hasContent_foregroundAt in Hc as [m Hm].
  pose proof (box_contains img m Hm) as Hbox. cbv zeta in Hbox.
  assert (Hlt : (m < length (data img))%nat).
  { destruct Hm as [p [Hp _]]. apply nth_error_Some. congruence. }
  pose proof (index_in_image img m Hwf Hlt) as Hidx.
  pose proof (scanFrom_box_attained (width img) (hasAlpha img)
                (red (bgPixel img)) (green (bgPixel img)) (blue (bgPixel img))
                (data img) 0 (initScan img)) as Hatt.
  cbv zeta in Hatt. fold (removeBackground img) in Hatt.
  change (scanFrom (width img) (hasAlpha img) (red (bgPixel img))
            (green (bgPixel img)) (blue (bgPixel img)) 0 (data img)
            (initScan img)) with (removeBackground img) in Hatt.
  simpl minX in Hatt; simpl maxX in Hatt; simpl minY in Hatt; simpl maxY in Hatt.
  destruct Hatt as [H1 [H2 [H3 H4]]].
  assert (Hhit : forall (f : Z -> Z) v,
             (exists j p, nth_error (data img) j = Some p /\
                          isBackground (hasAlpha img) (red (bgPixel img))
                            (green (bgPixel img)) (blue (bgPixel img)) p = false /\
                          f (0 + Z.of_nat j) = v) ->
             exists n, foregroundAt img n /\ f (Z.of_nat n) = v).
  { intros f v [j [p [Hj [Hp Hv]]]]. exists j. split; [now exists p | exact Hv]. }
  split; [|split; [|split]].
  - destruct H1 as [H|H]; [lia | exact (Hhit (fun i => i mod width img) _ H)].
  - destruct H2 as [H|H]; [|exact (Hhit (fun i => i mod width img) _ H)].
    exists m. split; [exact Hm | lia].
  - destruct H3 as [H|H]; [lia | exact (Hhit (fun i => i / width img) _ H)].
  - destruct H4 as [H|H]; [|exact (Hhit (fun i => i / width img) _ H)].
    exists m. split; [exact Hm | lia].
Qed.

(** ** C4: the side of the output square *)

Lemma canvasSide_floor st :
  canvasSide st = 6 * Z.max (contentWidth st) (contentHeight st) / 5.
Proof.
  unfold canvasSide, size, Qfloor. simpl.
  replace (Z.max (contentWidth st) (contentHeight st) * 12)
    with (6 * Z.max (contentWidth st) (contentHeight st) * 2) by lia.
  change 10 with (5 * 2). apply Z.div_mul_cancel_r; lia.
Qed.

(** C4, as the code has it.  With a foreground pixel in a decoded image, the
    box (minX, minY)-(maxX, maxY) is the bounding box of the foreground
    pixels, and the output canvas is a square of side
    floor(max(contentWidth, contentHeight) * 1.2): the product is stored
    unrounded and the canvas drops its fractional part.  A 4 x 4 block gives
    side 4. *)
Theorem output_side_truncated (P : Platform) (img : ImageData) :
  wfSize img -> hasContent (snd (removeBackground img)) = true ->
  let st := snd (removeBackground img) in
  let out := finalCanvas P img in
  (forall n, foregroundAt img n ->
             minX st <= xOf img n <= maxX st /\ minY st <= yOf img n <= maxY st) /\
  ((exists n, foregroundAt img n /\ xOf img n = minX st) /\
   (exists n, foregroundAt img n /\ xOf img n = maxX st) /\
   (exists n, foregroundAt img n /\ yOf img n = minY st) /\
   (exists n, foregroundAt img n /\ yOf img n = maxY st)) /\
  width out = 6 * Z.max (contentWidth st) (contentHeight st) / 5 /\
  height out = width out /\
  (Z.max (contentWidth st) (contentHeight st) = 4 -> width out = 4).
Proof.
  intros Hwf Hc st out.
  split; [intros n Hn; exact (box_contains img n Hn)|].
  split; [exact (box_tight img Hwf Hc)|].
  assert (Hside : width out = 6 * Z.max (contentWidth st) (contentHeight st) / 5)
    by (unfold out, finalCanvas; cbn [width]; apply canvasSide_floor).
  split; [exact Hside|]. split; [reflexivity|].
  intro H4. rewrite Hside, H4. reflexivity.
Qed.

Lemma output_side_truncated_witness :
  width (finalCanvas sampleHost scenarioA) = 4.
Proof.
  apply (output_side_truncated sampleHost scenarioA).
  - unfold wfSize. simpl. lia.
  - vm_compute. reflexivity.
  - vm_compute. reflexivity.
Defined.

(** C4 as the specification states it fails on scenario A: the red block is
    4 x 4, the specification's side is ceil(4.8) = 5, the canvas has side 4. *)
Lemma output_side_not_ceiling :
  hasContent scanA = true /\
  contentWidth scanA = 4 /\ contentHeight scanA = 4 /\
  specSquareSide scanA = 5 /\
  width (finalCanvas sampleHost scenarioA) = 4 /\
  width (finalCanvas sampleHost scenarioA) <> specSquareSide scanA.
Proof. vm_compute. repeat split; try reflexivity. discriminate. Qed.

Lemma classification_rule_witness :
  nth_error (fst (removeBackground scenarioA)) 0 = Some (mkPixel 255 255 255 0).
Proof.
  pose proof (classification_rule scenarioA 0 white eq_refl) as H.
  cbv zeta in H. apply H. vm_compute. reflexivity.
Defined.

(** ** C10: transparent pixels that count as foreground *)

Lemma processed_nth img n p :
  nth_error (fst (removeBackground img)) n = Some p ->
  nth_error (processed img) n =
  Some (match palette img with
        | [] => p
        | p0 :: _ => remapPixel p0 (palette img) p
        end).
Proof.
  intro H. unfold processed, remap. destruct (palette img) as [|p0 rest].
  - exact H.
  - now rewrite nth_error_map, H.
Qed.

(** C10.  In the colour mode (reference alpha not 0) a pixel of alpha 0 at
    Euclidean distance 40 or more from the reference colour is foreground: it
    sets [hasContent], lies in the bounding box, and is counted in the bucket
    of its key, whose sums and count are those of the foreground pixels of
    that key; the second loop skips it, so it leaves the loops as it entered
    them, with alpha 0 and its colour. *)
Theorem transparent_foreground_pixel (img : ImageData) (n : nat) (p : Pixel) :
  nth_error (data img) n = Some p ->
  alpha (bgPixel img) <> 0 ->
  alpha p = 0 ->
  (40 <= euclid (red p) (green p) (blue p) (red (bgPixel img))
                (green (bgPixel img)) (blue (bgPixel img)))%R ->
  let st := snd (removeBackground img) in
  background img p = false /\
  hasContent st = true /\
  (minX st <= xOf img n <= maxX st /\ minY st <= yOf img n <= maxY st) /\
  (exists bk, In (pixelKey p, bk) (colorAccumulator st) /\
              bk = total (filter (hasKey (pixelKey p)) (foregroundPixels img)) /\
              In p (filter (hasKey (pixelKey p)) (foregroundPixels img))) /\
  nth_error (processed img) n = Some p.
Proof.
  intros Hn Hbg Ha Hd st.
  assert (Hfg : background img p = false).
  { unfold background, isBackground, hasAlpha.
    rewrite (proj2 (Z.eqb_neq _ _) Hbg). simpl.
    apply Z.ltb_ge. apply (euclid_ge _ _ _ _ _ _ 40) in Hd; lia. }
  assert (Hat : foregroundAt img n) by (now exists p).
  split; [exact Hfg|].
  split; [apply hasContent_foregroundAt; now exists n|].
  split; [exact (box_contains img n Hat)|].
  split.
  - destruct (removeBackground_accFor img) as [_ [Hbk Hkeys]].
    assert (Hin : In p (foregroundPixels img)).
    { apply filter_In. split; [eapply nth_error_In; eassumption|].
      now rewrite Hfg. }
    apply Hkeys in Hin as Hk. apply in_map_iff in Hk as [[k bk] [Ek Hk]].
    simpl in Ek. subst k. exists bk. split; [exact Hk|].
    split; [now apply Hbk|].
    apply filter_In. split; [exact Hin | apply key_eqb_refl].
  - pose proof (removeBackground_nth img n p Hn) as Hkeep.
    rewrite Hfg in Hkeep. rewrite (processed_nth img n p Hkeep).
    unfold remapPixel. rewrite (proj2 (Z.eqb_eq _ _) Ha).
    now destruct (palette img).
Qed.

Lemma transparent_foreground_pixel_witness :
  background ghost transparentBlack = false /\
  nth_error (processed ghost) 21 = Some transparentBlack.
Proof.
  assert (H : (40 <= euclid 0 0 0 255 255 255)%R)
    by (apply (euclid_ge 0 0 0 255 255 255 40); vm_compute; discriminate).
  pose proof (transparent_foreground_pixel ghost 21 transparentBlack
                eq_refl ltac:(vm_compute; discriminate) eq_refl H) as T.
  cbv zeta in T. split; apply T.
Defined.

(** ** C8: the crop and its offsets *)

Lemma isWhole_inject q z :
  (q == inject_Z z)%Q -> isWhole q = true /\ Qfloor q = z.
Proof.
  intro H. assert (Hf : Qfloor q = z) by (rewrite H; apply Qfloor_Z).
  split; [|exact Hf].
  unfold isWhole. apply Qeq_bool_iff. now rewrite Hf.
Qed.

Lemma half_gap (c b : Q) (a : Z) (v : Z) :
  b = inject_Z v ->
  ((c - b) / (2 # 1) == inject_Z a)%Q -> (c == inject_Z (2 * a + v))%Q.
Proof.
  intros -> H. rewrite inject_Z_plus, inject_Z_mult.
  change (inject_Z 2) with (2 # 1)%Q.
  setoid_replace c
    with ((c - inject_Z v) / (2 # 1) * (2 # 1) + inject_Z v)%Q by field.
  rewrite H. ring.
Qed.

Lemma side_of_destX st dx :
  (destX st == inject_Z dx)%Q -> canvasSide st = 2 * dx + contentWidth st.
Proof.
  intro H. unfold canvasSide.
  rewrite (half_gap _ _ dx (contentWidth st) eq_refl H). apply Qfloor_Z.
Qed.

Lemma side_of_destY st dy :
  (destY st == inject_Z dy)%Q -> canvasSide st = 2 * dy + contentHeight st.
Proof.
  intro H. unfold canvasSide.
  rewrite (half_gap _ _ dy (contentHeight st) eq_refl H). apply Qfloor_Z.
Qed.

Lemma canvasSide_covers st :
  0 <= Z.max (contentWidth st) (contentHeight st) ->
  Z.max (contentWidth st) (contentHeight st) <= canvasSide st.
Proof.
  intro H. rewrite canvasSide_floor.
  apply Z.div_le_lower_bound; lia.
Qed.

Lemma nth_indices {A} (f : Z -> A) (d : A) len k :
  0 <= k < len -> nth (Z.to_nat k) (map f (indices len)) d = f k.
Proof.
  intro H. apply nth_error_nth. unfold indices.
  rewrite !nth_error_map, nth_error_seq.
  destruct (Nat.ltb_spec (Z.to_nat k) (Z.to_nat len)) as [_|Hge]; [|lia].
  simpl. f_equal. f_equal. lia.
Qed.

Lemma blit_pixelAt w px sx sy sw sh dx dy side x y :
  0 <= x < side -> 0 <= y < side ->
  pixelAt side (blit w px sx sy sw sh dx dy side) x y =
  blitPixel w px sx sy sw sh dx dy x y.
Proof.
  intros Hx Hy. unfold pixelAt, blit.
  rewrite nth_indices by nia.
  f_equal.
  - rewrite Z.add_comm, Z.mod_add by lia. apply Z.mod_small. exact Hx.
  - rewrite Z.add_comm, Z.div_add by lia. rewrite Z.div_small by exact Hx. lia.
Qed.

Lemma sourceOver_cases p :
  (alpha p <> 0 -> sourceOver p = p) /\ (alpha p = 0 -> alpha (sourceOver p) = 0).
Proof.
  unfold sourceOver. split; intro H.
  - now rewrite (proj2 (Z.eqb_neq _ _) H).
  - now rewrite (proj2 (Z.eqb_eq _ _) H).
Qed.

(** C8, as the code has it.  The content rectangle is drawn at
    destX = (size - contentWidth) / 2 and destY = (size - contentHeight) / 2
    where size = max(contentWidth, contentHeight) * 1.2 is the unrounded
    product, not the side of the canvas.  When both offsets are whole numbers
    dx and dy, the canvas has side 2 dx + contentWidth = 2 dy + contentHeight,
    the rectangle lies inside it, and the output pixel at (dx + i, dy + j) is
    the pixel (minX + i, minY + j) of the processed buffer composited on
    transparent black: equal to it, channel by channel, when its alpha is
    not 0, and of alpha 0 when its alpha is 0. *)
Theorem crop_recentres_content (P : Platform) (img : ImageData) :
  let st := snd (removeBackground img) in
  let out := finalCanvas P img in
  (destX st ==
   (inject_Z (Z.max (contentWidth st) (contentHeight st)) * (12 # 10)
    - inject_Z (contentWidth st)) / (2 # 1))%Q /\
  (destY st ==
   (inject_Z (Z.max (contentWidth st) (contentHeight st)) * (12 # 10)
    - inject_Z (contentHeight st)) / (2 # 1))%Q /\
  forall dx dy i j : Z,
    (destX st == inject_Z dx)%Q -> (destY st == inject_Z dy)%Q ->
    0 <= i < contentWidth st -> 0 <= j < contentHeight st ->
    let src := pixelAt (width img) (processed img) (minX st + i) (minY st + j) in
    let dst := pixelAt (width out) (data out) (dx + i) (dy + j) in
    width out = 2 * dx + contentWidth st /\
    height out = 2 * dy + contentHeight st /\
    0 <= dx /\ 0 <= dy /\
    dst = sourceOver src /\
    (alpha src <> 0 -> dst = src) /\
    (alpha src = 0 -> alpha dst = 0).
Proof.
  intros st out.
  split; [reflexivity|]. split; [reflexivity|].
  intros dx dy i j Hx Hy Hi Hj src dst.
  pose proof (side_of_destX st dx Hx) as Sx.
  pose proof (side_of_destY st dy Hy) as Sy.
  pose proof (canvasSide_covers st ltac:(lia)) as Hcov.
  destruct (isWhole_inject _ _ Hx) as [Wx Fx].
  destruct (isWhole_inject _ _ Hy) as [Wy Fy].
  assert (Hdst : dst = sourceOver src).
  { unfold dst, out, finalCanvas. cbn [width data]. fold st.
    unfold drawImage. rewrite Wx, Wy, Fx, Fy. cbn [andb].
    rewrite blit_pixelAt by lia.
    unfold blitPixel.
    replace ((dx <=? dx + i) && (dx + i <? dx + contentWidth st)
             && (dy <=? dy + j) && (dy + j <? dy + contentHeight st))
      with true by (symmetry; rewrite !andb_true_iff;
                    rewrite !Z.leb_le, !Z.ltb_lt; lia).
    unfold src. do 3 f_equal; lia. }
  split; [exact Sx|]. split; [exact Sy|].
  split; [lia|]. split; [lia|].
  split; [exact Hdst|].
  rewrite Hdst. apply sourceOver_cases.
Qed.

Lemma crop_recentres_content_witness :
  pixelAt 12 (data (finalCanvas sampleHost ghost)) 1 5 = pureRed.
Proof.
  pose proof (crop_recentres_content sampleHost ghost) as T.
  cbv zeta in T. destruct T as [_ [_ T]].
  specialize (T 1 5 0 0 ltac:(vm_compute; reflexivity)
                ltac:(vm_compute; reflexivity)
                ltac:(vm_compute; split; [discriminate | reflexivity])
                ltac:(vm_compute; split; [discriminate | reflexivity])).
  destruct T as [_ [_ [_ [_ [_ [T _]]]]]].
  etransitivity; [apply T; vm_compute; discriminate|].
  vm_compute. reflexivity.
Defined.

(** C8 as the specification states it fails on scenario A: the code draws at
    destX = 0.4, which is neither (5 - 4) / 2 for the specification's side 5
    nor (4 - 4) / 2 for the side 4 of the canvas; drawn there, the 4 columns
    of the content end at 4.4, past the canvas. *)
Lemma crop_offset_not_from_side :
  hasContent scanA = true /\
  (destX scanA == 2 # 5)%Q /\
  ~ (destX scanA ==
     (inject_Z (specSquareSide scanA) - inject_Z (contentWidth scanA)) / (2 # 1))%Q /\
  ~ (destX scanA ==
     (inject_Z (canvasSide scanA) - inject_Z (contentWidth scanA)) / (2 # 1))%Q /\
  (inject_Z (canvasSide scanA) < destX scanA + inject_Z (contentWidth scanA))%Q.
Proof.
  split; [vm_compute; reflexivity|].
  split; [vm_compute; reflexivity|].
  split; [intro H; vm_compute in H; discriminate H|].
  split; [intro H; vm_compute in H; discriminate H|].
  vm_compute. reflexivity.
Qed.

(** ** Where the palette comes from *)

Lemma greedy_incl cands : forall pal c,
  In c (greedy cands pal) -> In c pal \/ In c cands.
Proof.
  induction cands as [|x rest IH]; intros pal c H; cbn [greedy] in H.
  - now left.
  - destruct (4 <=? length pal)%nat; [now left|].
    destruct (isDistinct x pal).
    + apply IH in H as [H|H]; [|right; now right].
      apply in_app_or in H as [H|[H|[]]]; [now left | right; now left].
    + apply IH in H as [H|H]; [now left | right; now right].
Qed.

Lemma fill_incl cands : forall pal c,
  In c (fill cands pal) -> In c pal \/ In c cands.
Proof.
  induction cands as [|x rest IH]; intros pal c H; cbn [fill] in H.
  - now left.
  - destruct (length pal <? 4)%nat; [|now left].
    destruct (includes pal x).
    + apply IH in H as [H|H]; [now left | right; now right].
    + apply IH in H as [H|H]; [|right; now right].
      apply in_app_or in H as [H|[H|[]]]; [now left | right; now left].
Qed.

Lemma selectPalette_incl cands c : In c (selectPalette cands) -> In c cands.
Proof.
  unfold selectPalette. intro H.
  destruct ((length (greedy cands []) <? 4)%nat && (0 <? length cands)%nat).
  - apply fill_incl in H as [H|H]; [|exact H].
    apply greedy_incl in H as [[]|H]. exact H.
  - apply greedy_incl in H as [[]|H]. exact H.
Qed.

Lemma mapIndexed_In bs : forall i c,
  In c (mapIndexed i bs) -> exists k bk, In bk bs /\ c = average k bk.
Proof.
  induction bs as [|bk rest IH]; intros i c H; simpl in H; [contradiction|].
  destruct H as [H|H].
  - exists i, bk. split; [now left | now symmetry].
  - apply IH in H as [k [b0 [Hin E]]]. exists k, b0. split; [now right | exact E].
Qed.

(** Every palette colour is the rounded average of the foreground pixels of
    one key. *)
Lemma palette_source img c :
  In c (palette img) ->
  exists key k,
    filter (hasKey key) (foregroundPixels img) <> [] /\
    c = average k (total (filter (hasKey key) (foregroundPixels img))).
Proof.
  intro H. apply selectPalette_incl in H. unfold candidates, sortedBuckets in H.
  apply mapIndexed_In in H as [k [bk [Hin E]]].
  apply (Permutation_in _ (sortBuckets_perm _)) in Hin.
  apply in_map_iff in Hin as [[key b0] [Eb Hin]]. simpl in Eb. subst b0.
  destruct (removeBackground_accFor img) as [_ [Hbk _]].
  destruct (Hbk _ _ Hin) as [Et Hne].
  exists key, k. split; [exact Hne|]. rewrite E, Et. reflexivity.
Qed.

Lemma sumOf_bounds f lo hi l :
  (forall p, In p l -> lo <= f p <= hi) ->
  lo * Z.of_nat (length l) <= sumOf f l <= hi * Z.of_nat (length l).
Proof.
  induction l as [|q rest IH]; intro H.
  - simpl. lia.
  - assert (Hq := H q (or_introl eq_refl)).
    assert (Hr := IH (fun p Hp => H p (or_intror Hp))).
    change (sumOf f (q :: rest)) with (f q + sumOf f rest).
    change (length (q :: rest)) with (S (length rest)). lia.
Qed.

Lemma jsRoundDiv_bounds n d lo hi :
  0 < d -> lo * d <= n <= hi * d -> lo <= jsRoundDiv n d <= hi.
Proof.
  intros Hd H. unfold jsRoundDiv. split.
  - apply Z.div_le_lower_bound; lia.
  - apply Z.lt_succ_r. apply Z.div_lt_upper_bound; lia.
Qed.

Lemma length_pos {A} (l : list A) : l <> [] -> 0 < Z.of_nat (length l).
Proof. destruct l; [contradiction | simpl; lia]. Qed.

Lemma palette_in_range img c :
  Forall wfPixel (data img) -> In c (palette img) ->
  inRange (c_r c) /\ inRange (c_g c) /\ inRange (c_b c).
Proof.
  intros Hwf Hc. apply palette_source in Hc as [key [k [Hne ->]]].
  set (l := filter (hasKey key) (foregroundPixels img)) in *.
  assert (Hl : forall p, In p l -> wfPixel p).
  { intros p Hp. apply filter_In in Hp as [Hp _].
    apply filter_In in Hp as [Hp _].
    rewrite Forall_forall in Hwf. now apply Hwf. }
  pose proof (length_pos l Hne) as Hlen.
  unfold average, total, inRange; cbn [c_r c_g c_b b_r b_g b_b b_count].
  split; [|split]; apply jsRoundDiv_bounds; try exact Hlen;
    apply (sumOf_bounds _ 0 255); intros p Hp; apply (Hl p Hp).
Qed.

(** ** C2: the nearest palette colour *)

Lemma distanceTo_le p c q :
  (distanceTo p c <= distanceTo p q)%R <->
  sqDist (red p) (green p) (blue p) (c_r c) (c_g c) (c_b c)
  <= sqDist (red p) (green p) (blue p) (c_r q) (c_g q) (c_b q).
Proof. apply sqrt_le_iff; apply sqDist_nonneg. Qed.

Lemma distanceTo_lt p c q :
  (distanceTo p c < distanceTo p q)%R <->
  sqDist (red p) (green p) (blue p) (c_r c) (c_g c) (c_b c)
  < sqDist (red p) (green p) (blue p) (c_r q) (c_g q) (c_b q).
Proof.
  pose proof (distanceTo_le p q c) as Hle. split; intro H.
  - apply Z.nle_gt. intro Hge. apply Hle in Hge.
    exact (Rlt_irrefl _ (Rle_lt_trans _ _ _ Hge H)).
  - apply Rnot_le_lt. intro Hge. apply Hle in Hge. lia.
Qed.

Section Closest.

Variables r g b : Z.

Let d (q : Color) : Z := sqDist r g b (c_r q) (c_g q) (c_b q).

(** The inner loop returns the running best when no entry beats it, and
    otherwise the first entry at the least distance, which beats it. *)
Lemma closest_spec pal : forall minDist best,
  let c := closest r g b pal minDist best in
  (c = best /\ forall q, In q pal -> ltMin (d q) minDist = false) \/
  (exists i, nth_error pal i = Some c /\
             ltMin (d c) minDist = true /\
             (forall q, In q pal -> d c <= d q) /\
             (forall j q, (j < i)%nat -> nth_error pal j = Some q -> d c < d q)).
Proof.
  induction pal as [|p rest IH]; intros minDist best; cbv zeta.
  - left. split; [reflexivity | intros q []].
  - cbn [closest]. fold (d p).
    destruct (ltMin (d p) minDist) eqn:E.
    + right. specialize (IH (Some (d p)) p). cbv zeta in IH.
      destruct IH as [[Hc Hall]|[i [Hi [Hlt [Hmin Hfirst]]]]].
      * exists 0%nat. rewrite Hc. split; [reflexivity|]. split; [exact E|].
        split.
        -- intros q [<-|Hq]; [lia|]. specialize (Hall q Hq). simpl in Hall.
           apply Z.ltb_ge in Hall. exact Hall.
        -- intros j q Hj. lia.
      * exists (S i). split; [exact Hi|]. simpl in Hlt. apply Z.ltb_lt in Hlt.
        split.
        -- destruct minDist as [m|]; [|reflexivity]. simpl in *.
           apply Z.ltb_lt in E. apply Z.ltb_lt. lia.
        -- split.
           ++ intros q [<-|Hq]; [lia | now apply Hmin].
           ++ intros [|j] q Hj Hq; simpl in Hq.
              ** inversion Hq; subst q. exact Hlt.
              ** apply (Hfirst j q); [lia | exact Hq].
    + destruct minDist as [m|]; [|discriminate E]. simpl in E.
      apply Z.ltb_ge in E.
      specialize (IH (Some m) best). cbv zeta in IH.
      destruct IH as [[Hc Hall]|[i [Hi [Hlt [Hmin Hfirst]]]]].
      * left. split; [exact Hc|]. intros q [<-|Hq]; [|now apply Hall].
        simpl. now apply Z.ltb_ge.
      * right. exists (S i). split; [exact Hi|]. split; [exact Hlt|].
        simpl in Hlt. apply Z.ltb_lt in Hlt. split.
        -- intros q [<-|Hq]; [lia | now apply Hmin].
        -- intros [|j] q Hj Hq; simpl in Hq.
           ++ inversion Hq; subst q. lia.
           ++ apply (Hfirst j q); [lia | exact Hq].
Qed.

Lemma closest_first_minimum p0 pal :
  pal <> [] ->
  let c := closest r g b pal None p0 in
  exists i, nth_error pal i = Some c /\
            (forall q, In q pal -> d c <= d q) /\
            (forall j q, (j < i)%nat -> nth_error pal j = Some q -> d c < d q).
Proof.
  intros Hne. cbv zeta.
  destruct (closest_spec pal None p0) as [[_ Hall]|[i [Hi [_ [Hmin Hfirst]]]]].
  - destruct pal as [|q rest]; [contradiction|].
    specialize (Hall q (or_introl eq_refl)). discriminate Hall.
  - exists i. auto.
Qed.

End Closest.

Lemma foreground_of_opaque img n p :
  nth_error (fst (removeBackground img)) n = Some p -> alpha p <> 0 ->
  nth_error (data img) n = Some p /\ background img p = false.
Proof.
  intros Hn Ha. rewrite removeBackground_pixels, nth_error_map in Hn.
  destruct (nth_error (data img) n) as [p0|]; [|discriminate].
  simpl in Hn. destruct (background img p0) eqn:E.
  - inversion Hn; subst p. exfalso. apply Ha. reflexivity.
  - inversion Hn; subst p. auto.
Qed.

(** C2.  A pixel whose alpha is not 0 when the second loop reaches it gets
    the colour of the palette entry at the least Euclidean distance from its
    colour, the first such entry in palette order, and alpha 255. *)
Theorem remap_nearest_palette (img : ImageData) (n : nat) (p : Pixel) :
  Forall wfPixel (data img) ->
  nth_error (fst (removeBackground img)) n = Some p ->
  alpha p <> 0 ->
  exists i c,
    nth_error (palette img) i = Some c /\
    (forall q, In q (palette img) -> (distanceTo p c <= distanceTo p q)%R) /\
    (forall j q, (j < i)%nat -> nth_error (palette img) j = Some q ->
                 (distanceTo p c < distanceTo p q)%R) /\
    nth_error (processed img) n = Some (mkPixel (c_r c) (c_g c) (c_b c) 255).
Proof.
  intros Hwf Hn Ha.
  destruct (foreground_of_opaque img n p Hn Ha) as [Hd Hfg].
  assert (Hc : hasContent (snd (removeBackground img)) = true)
    by (apply hasContent_foregroundAt; exists n, p; auto).
  pose proof (palette_nonempty img Hc) as Hne.
  rewrite (processed_nth img n p Hn).
  destruct (palette img) as [|p0 rest] eqn:Ep; [contradiction|].
  rewrite <- Ep in *.
  destruct (closest_first_minimum (red p) (green p) (blue p) p0 (palette img) Hne)
    as [i [Hi [Hmin Hfirst]]].
  set (c := closest (red p) (green p) (blue p) (palette img) None p0) in *.
  exists i, c. split; [exact Hi|]. split; [|split].
  - intros q Hq. apply distanceTo_le. now apply Hmin.
  - intros j q Hj Hq. apply distanceTo_lt. now apply (Hfirst j q).
  - unfold remapPixel. rewrite (proj2 (Z.eqb_neq _ _) Ha). fold c.
    destruct (palette_in_range img c Hwf (nth_error_In _ _ Hi)) as [Hr [Hg Hb]].
    rewrite !clamp8_id by (unfold inRange in *; lia). reflexivity.
Qed.

Lemma remap_nearest_palette_witness :
  exists i c,
    nth_error (palette scenarioA) i = Some c /\
    nth_error (processed scenarioA) 33
    = Some (mkPixel (c_r c) (c_g c) (c_b c) 255).
Proof.
  destruct (remap_nearest_palette scenarioA 33 pureRed) as [i [c [H1 [_ [_ H2]]]]].
  - vm_compute. repeat constructor; discriminate.
  - vm_compute. reflexivity.
  - vm_compute. discriminate.
  - exists i, c. split; assumption.
Defined.

(** ** C3: size and separation of the palette *)

Lemma apart_euclid c p :
  apart c p <->
  (45 <= euclid (c_r c) (c_g c) (c_b c) (c_r p) (c_g p) (c_b p))%R.
Proof. unfold apart, colorDist. symmetry. apply (euclid_ge _ _ _ _ _ _ 45). lia. Qed.

Lemma apart_sym c p : apart c p -> apart p c.
Proof. unfold apart, colorDist. now rewrite sqDist_sym. Qed.

Lemma isDistinct_apart cand pal :
  isDistinct cand pal = true <-> forall p, In p pal -> apart cand p.
Proof.
  induction pal as [|q rest IH]; cbn [isDistinct].
  - split; [intros _ p [] | reflexivity].
  - destruct (Z.ltb_spec (colorDist cand q) (45 * 45)) as [Hlt|Hge].
    + split; [discriminate|]. intro H. specialize (H q (or_introl eq_refl)).
      unfold apart in H. lia.
    + rewrite IH. split.
      * intros H p [<-|Hp]; [exact Hge | now apply H].
      * intros H p Hp. apply H. now right.
Qed.

Lemma ForallOrdPairs_snoc {A} (R : A -> A -> Prop) l x :
  ForallOrdPairs R l -> (forall y, In y l -> R y x) ->
  ForallOrdPairs R (l ++ [x]).
Proof.
  induction 1 as [|a l Ha Hl IH]; intro Hx; simpl.
  - repeat constructor.
  - constructor.
    + apply Forall_app. split.
      * exact Ha.
      * constructor; [apply Hx; now left | constructor].
    + apply IH. intros y Hy. apply Hx. now right.
Qed.

(** The colours the greedy loop admits are pairwise apart. *)
Lemma greedy_apart cands : forall pal,
  ForallOrdPairs apart pal -> ForallOrdPairs apart (greedy cands pal).
Proof.
  induction cands as [|c rest IH]; intros pal H; cbn [greedy].
  - exact H.
  - destruct (4 <=? length pal)%nat; [exact H|].
    destruct (isDistinct c pal) eqn:E; [|now apply IH].
    apply IH. apply ForallOrdPairs_snoc; [exact H|].
    intros y Hy. apply apart_sym. now apply (proj1 (isDistinct_apart c pal) E).
Qed.

(** C3, as the code has it.  With a foreground pixel the palette has between
    1 and 4 colours.  The colours the greedy selection admits are pairwise at
    Euclidean distance 45 or more and open the palette; so when the greedy
    selection itself admits 4 colours, every pair of the palette is 45 or
    more apart. *)
Theorem palette_size_and_separation (img : ImageData) :
  hasContent (snd (removeBackground img)) = true ->
  let cands := candidates (colorAccumulator (snd (removeBackground img))) in
  (1 <= length (palette img) <= 4)%nat /\
  ForallOrdPairs apart (greedy cands []) /\
  (exists filled, palette img = greedy cands [] ++ filled) /\
  (length (greedy cands []) = 4%nat ->
   ForallOrdPairs
     (fun c p => (45 <= euclid (c_r c) (c_g c) (c_b c) (c_r p) (c_g p) (c_b p))%R)
     (palette img)).
Proof.
  intros Hc cands.
  pose proof (greedy_apart cands [] (FOP_nil _)) as Hg.
  split; [apply selectPalette_size, hasContent_candidates, Hc|].
  split; [exact Hg|]. split.
  - unfold palette, selectPalette. fold cands.
    destruct ((length (greedy cands []) <? 4)%nat && (0 <? length cands)%nat).
    + apply fill_extends.
    + exists []. now rewrite app_nil_r.
  - intro H4. unfold palette, selectPalette. fold cands. rewrite H4. simpl.
    clear H4. induction Hg as [|a l Ha Hl IH]; constructor.
    + eapply Forall_impl; [|exact Ha]. intros p Hp. now apply apart_euclid.
    + exact IH.
Qed.

Lemma palette_size_and_separation_witness :
  (1 <= length (palette scenarioA) <= 4)%nat.
Proof.
  apply (palette_size_and_separation scenarioA). vm_compute. reflexivity.
Defined.

(** C3 as the specification states it fails on [shades]: the candidates are
    the dark red (two pixels) and four colours that are pairwise 45 or more
    apart; the greedy loop admits three colours, the fallback adds the top
    candidate not yet in the palette, and the palette of 4 holds two colours
    at distance 40. *)
Lemma four_apart_candidates_not_enough :
  hasContent (snd (removeBackground shades)) = true /\
  length (palette shades) = 4%nat /\
  length (tl (candidates (colorAccumulator (snd (removeBackground shades))))) = 4%nat /\
  pairwiseApart (tl (candidates (colorAccumulator (snd (removeBackground shades)))))
  = true /\
  (exists c p, nth_error (palette shades) 0 = Some c /\
               nth_error (palette shades) 3 = Some p /\
               (euclid (c_r c) (c_g c) (c_b c) (c_r p) (c_g p) (c_b p) < 45)%R).
Proof.
  split; [vm_compute; reflexivity|].
  split; [vm_compute; reflexivity|].
  split; [vm_compute; reflexivity|].
  split; [vm_compute; reflexivity|].
  exists (mkColor 0 100 0 0), (mkColor 1 100 40 0).
  split; [vm_compute; reflexivity|].
  split; [vm_compute; reflexivity|].
  apply (euclid_lt _ _ _ _ _ _ 45); vm_compute; [discriminate | reflexivity].
Qed.

(** ** Candidates are distinct colours *)

Lemma quantize_bounds v q :
  jsRoundDiv v bucketSize = q <-> 24 * q - 12 <= v <= 24 * q + 11.
Proof.
  unfold jsRoundDiv, bucketSize. change (2 * 24) with 48. split.
  - intros <-. pose proof (Z.mul_div_le (2 * v + 24) 48 ltac:(lia)).
    pose proof (Z.mul_succ_div_gt (2 * v + 24) 48 ltac:(lia)). lia.
  - intro H. symmetry. apply Z.div_unique with (r := 2 * v + 24 - 48 * q); lia.
Qed.

(** The rounded average of values of one bucket falls in that bucket. *)
Lemma quantize_average f l K :
  l <> [] -> (forall p, In p l -> quantize (f p) = K) ->
  quantize (jsRoundDiv (sumOf f l) (Z.of_nat (length l))) = K.
Proof.
  intros Hne H. destruct l as [|p0 rest] eqn:El; [contradiction|].
  rewrite <- El in *. assert (H0 : In p0 l) by (rewrite El; now left).
  set (q := jsRoundDiv (f p0) bucketSize).
  assert (HK : K = q * bucketSize) by (rewrite <- (H p0 H0); reflexivity).
  assert (Hall : forall p, In p l -> 24 * q - 12 <= f p <= 24 * q + 11).
  { intros p Hp. apply quantize_bounds. specialize (H p Hp).
    unfold quantize in H. rewrite HK in H.
    apply Z.mul_reg_r in H; [exact H | discriminate]. }
  pose proof (sumOf_bounds f _ _ l Hall) as Hsum.
  pose proof (length_pos l Hne) as Hlen.
  unfold quantize. rewrite HK. f_equal.
  apply quantize_bounds. apply jsRoundDiv_bounds; [exact Hlen | exact Hsum].
Qed.

Lemma keyOf_inv r g b kr kg kb :
  keyOf r g b = (kr, kg, kb) <->
  quantize r = kr /\ quantize g = kg /\ quantize b = kb.
Proof.
  unfold keyOf. split.
  - intro H. inversion H. auto.
  - intros [-> [-> ->]]. reflexivity.
Qed.

Lemma average_key key k l :
  l <> [] -> (forall p, In p l -> pixelKey p = key) ->
  colorKey (average k (total l)) = key.
Proof.
  intros Hne H. destruct key as [[kr kg] kb].
  unfold colorKey, average, total. cbn [c_r c_g c_b b_r b_g b_b b_count].
  apply keyOf_inv.
  split; [|split]; apply quantize_average; try exact Hne; intros p Hp;
    specialize (H p Hp); apply keyOf_inv in H; tauto.
Qed.

Lemma average_key_acc seen acc key bk k :
  accFor seen acc -> In (key, bk) acc -> colorKey (average k bk) = key.
Proof.
  intros [_ [Hbk _]] Hin. destruct (Hbk _ _ Hin) as [-> Hne].
  apply average_key; [exact Hne|].
  intros p Hp. apply filter_In in Hp as [_ Hp]. now apply key_eqb_eq.
Qed.

Lemma mapIndexed_keys bs : forall i,
  map colorKey (mapIndexed i bs) = map (fun bk => colorKey (average 0 bk)) bs.
Proof. induction bs as [|bk rest IH]; intro i; simpl; [|rewrite IH]; reflexivity. Qed.

Lemma mapIndexed_ids bs : forall i,
  map c_id (mapIndexed i bs) = seq i (length bs).
Proof. induction bs as [|bk rest IH]; intro i; simpl; [|rewrite IH]; reflexivity. Qed.

Lemma NoDup_map_inj {A B} (f : A -> B) l x y :
  NoDup (map f l) -> In x l -> In y l -> f x = f y -> x = y.
Proof.
  induction l as [|a rest IH]; simpl; intros Hnd Hx Hy E; [contradiction|].
  inversion Hnd as [|? ? Hnot Hnd']; subst.
  destruct Hx as [->|Hx], Hy as [->|Hy].
  - reflexivity.
  - exfalso. apply Hnot. rewrite E. now apply in_map.
  - exfalso. apply Hnot. rewrite <- E. now apply in_map.
  - now apply IH.
Qed.

Lemma candidates_keys_NoDup seen acc :
  accFor seen acc -> NoDup (map colorKey (candidates acc)).
Proof.
  intro H. unfold candidates, sortedBuckets. rewrite mapIndexed_keys.
  eapply Permutation_NoDup.
  - apply Permutation_sym, Permutation_map, sortBuckets_perm.
  - rewrite map_map.
    rewrite (map_ext_in _ fst).
    + apply H.
    + intros [key bk] Hin. simpl. now apply (average_key_acc seen acc).
Qed.

Lemma candidates_ids_NoDup acc : NoDup (map c_id (candidates acc)).
Proof. unfold candidates. rewrite mapIndexed_ids. apply seq_NoDup. Qed.

Lemma sameColor_key c p : sameColor c p = true -> colorKey c = colorKey p.
Proof.
  unfold sameColor, colorKey. rewrite !andb_true_iff, !Z.eqb_eq.
  intros [[-> ->] ->]. reflexivity.
Qed.

Lemma sameColor_refl c : sameColor c c = true.
Proof. unfold sameColor. now rewrite !Z.eqb_refl. Qed.

(** Among the candidates of an image, to be the same object and to have the
    same colour are one and the same. *)
Lemma includes_sameColor seen acc pal c :
  accFor seen acc -> incl pal (candidates acc) -> In c (candidates acc) ->
  includes pal c = existsb (sameColor c) pal.
Proof.
  intros Hacc Hpal Hc. apply eq_iff_eq_true. unfold includes.
  rewrite !existsb_exists. split; intros [p [Hp E]]; exists p; split; try exact Hp.
  - apply Nat.eqb_eq in E.
    rewrite (NoDup_map_inj c_id _ p c (candidates_ids_NoDup acc)
               (Hpal p Hp) Hc E).
    apply sameColor_refl.
  - apply sameColor_key in E.
    rewrite (NoDup_map_inj colorKey _ c p (candidates_keys_NoDup seen acc Hacc)
               Hc (Hpal p Hp) E).
    apply Nat.eqb_refl.
Qed.

(** ** C7: the fallback *)

Lemma insertBucket_sorted x l :
  StronglySorted (fun a b => b_count b <= b_count a) l ->
  StronglySorted (fun a b => b_count b <= b_count a) (insertBucket x l).
Proof.
  induction 1 as [|y ys Hs IH Hy]; simpl.
  - repeat constructor.
  - destruct (Z.leb_spec (b_count y) (b_count x)) as [Hle|Hgt].
    + constructor; [now constructor|].
      constructor; [exact Hle|].
      eapply Forall_impl; [|exact Hy]. simpl. intros z Hz. lia.
    + constructor; [exact IH|].
      apply (Permutation_Forall (Permutation_sym (insertBucket_perm x ys))).
      constructor; [lia | exact Hy].
Qed.

(** The candidates are ranked by the pixel count of their buckets, largest
    first. *)
Lemma sortedBuckets_descending acc :
  StronglySorted (fun a b => b_count b <= b_count a) (sortedBuckets acc).
Proof.
  unfold sortedBuckets, sortBuckets.
  induction (map snd acc) as [|x l IH]; simpl.
  - constructor.
  - now apply insertBucket_sorted.
Qed.

Lemma fill_fillSpec seen acc :
  accFor seen acc ->
  forall cands pal,
    incl cands (candidates acc) -> incl pal (candidates acc) ->
    fill cands pal = fillSpec cands pal.
Proof.
  intros Hacc. induction cands as [|c rest IH]; intros pal Hc Hp.
  - reflexivity.
  - cbn [fill fillSpec].
    assert (Hrest : incl rest (candidates acc))
      by (intros x Hx; apply Hc; now right).
    assert (Hin : In c (candidates acc)) by (apply Hc; now left).
    rewrite <- (includes_sameColor seen acc pal c Hacc Hp Hin).
    destruct (Nat.ltb_spec (length pal) 4) as [Hlt|Hge].
    + rewrite (proj2 (Nat.leb_gt 4 (length pal))) by exact Hlt.
      destruct (includes pal c); apply IH; try assumption.
      intros x Hx. apply in_app_or in Hx as [Hx|[<-|[]]]; [now apply Hp | exact Hin].
    + now rewrite (proj2 (Nat.leb_le 4 (length pal))) by exact Hge.
Qed.

(** When the fallback ends below 4 colours it has walked the whole ranking:
    every candidate is in the palette. *)
Lemma fill_exhausts cands : forall pal c,
  (length (fill cands pal) < 4)%nat -> In c cands ->
  exists p, In p (fill cands pal) /\ c_id p = c_id c.
Proof.
  induction cands as [|x rest IH]; intros pal c Hlen Hc; [contradiction|].
  cbn [fill] in *.
  destruct (Nat.ltb_spec (length pal) 4) as [Hlt|Hge]; [|lia].
  destruct Hc as [<-|Hc]; [|now apply IH].
  destruct (includes pal x) eqn:E.
  - unfold includes in E. apply existsb_exists in E as [p [Hp Eid]].
    exists p. split; [|now apply Nat.eqb_eq].
    destruct (fill_extends rest pal) as [ext ->]. apply in_or_app. now left.
  - exists x. split; [|reflexivity].
    destruct (fill_extends rest (pal ++ [x])) as [ext ->].
    apply in_or_app. left. apply in_or_app. right. now left.
Qed.

(** C7.  When the greedy selection admits fewer than 4 colours (and there is
    a candidate at all), the palette is the admitted colours followed by the
    candidates taken in ranking order, largest bucket first, a candidate
    being skipped when its colour is already in the palette, until the
    palette holds 4 colours or the ranking is exhausted. *)
Theorem fallback_fills_from_ranking (img : ImageData) :
  let acc := colorAccumulator (snd (removeBackground img)) in
  let admitted := greedy (candidates acc) [] in
  (length admitted < 4)%nat -> candidates acc <> [] ->
  candidates acc = mapIndexed 0 (sortedBuckets acc) /\
  StronglySorted (fun a b => b_count b <= b_count a) (sortedBuckets acc) /\
  palette img = fillSpec (candidates acc) admitted /\
  (length (palette img) <= 4)%nat /\
  (length (palette img) = 4%nat \/
   forall c, In c (candidates acc) -> In c (palette img)).
Proof.
  intros acc admitted Hlt Hne.
  pose proof (removeBackground_accFor img) as Hacc. fold acc in Hacc.
  assert (Hpal : palette img = fill (candidates acc) admitted).
  { unfold palette, selectPalette. fold acc. fold admitted.
    rewrite (proj2 (Nat.ltb_lt _ _) Hlt).
    destruct (candidates acc); [contradiction | reflexivity]. }
  assert (Hadm : incl admitted (candidates acc)).
  { intros c Hc. apply greedy_incl in Hc as [[]|Hc]. exact Hc. }
  split; [reflexivity|]. split; [apply sortedBuckets_descending|].
  split.
  { rewrite Hpal.
    apply (fill_fillSpec _ acc Hacc); [apply incl_refl | exact Hadm]. }
  assert (Hle : (length (palette img) <= 4)%nat)
    by (rewrite Hpal; apply fill_length; lia).
  split; [exact Hle|].
  destruct (Nat.eq_dec (length (palette img)) 4) as [E|E]; [now left | right].
  intros c Hc. rewrite Hpal in *.
  destruct (fill_exhausts (candidates acc) admitted c ltac:(lia) Hc) as [p [Hp Eid]].
  assert (Hpc : In p (candidates acc)).
  { apply fill_incl in Hp as [Hp|Hp]; [now apply Hadm | exact Hp]. }
  now rewrite <- (NoDup_map_inj c_id _ p c (candidates_ids_NoDup acc) Hpc Hc Eid).
Qed.

Lemma fallback_fills_from_ranking_witness :
  palette shades
  = fillSpec (candidates (colorAccumulator (snd (removeBackground shades))))
             (greedy (candidates (colorAccumulator (snd (removeBackground shades)))) []).
Proof.
  apply (fallback_fills_from_ranking shades).
  - vm_compute. lia.
  - vm_compute. discriminate.
Defined.

(** ** C9: running the routine on its own output *)

(** The second run reads the pixels of the canvas the first run produced:
    PNG is lossless, and every pixel of that canvas is opaque or transparent
    black. *)

Lemma jsRoundDiv_exact n v : 0 < n -> jsRoundDiv (n * v) n = v.
Proof.
  intro H. unfold jsRoundDiv. symmetry.
  apply Z.div_unique with (r := n); lia.
Qed.

Lemma remapped_foreground img n p :
  Forall wfPixel (data img) ->
  nth_error (data img) n = Some p -> background img p = false -> alpha p <> 0 ->
  exists c, In c (palette img) /\
            nth_error (processed img) n = Some (mkPixel (c_r c) (c_g c) (c_b c) 255).
Proof.
  intros Hwf Hn Hfg Ha.
  pose proof (removeBackground_nth img n p Hn) as H1. rewrite Hfg in H1.
  assert (Hc : hasContent (snd (removeBackground img)) = true)
    by (apply hasContent_foregroundAt; exists n, p; auto).
  pose proof (palette_nonempty img Hc) as Hne.
  rewrite (processed_nth img n p H1).
  destruct (palette img) as [|p0 rest] eqn:Ep; [contradiction|].
  rewrite <- Ep in *.
  destruct (closest_first_minimum (red p) (green p) (blue p) p0 (palette img) Hne)
    as [i [Hi _]].
  set (c := closest (red p) (green p) (blue p) (palette img) None p0) in *.
  exists c. split; [eapply nth_error_In; exact Hi|].
  unfold remapPixel. rewrite (proj2 (Z.eqb_neq _ _) Ha). fold c.
  destruct (palette_in_range img c Hwf (nth_error_In _ _ Hi)) as [Hr [Hg Hb]].
  rewrite !clamp8_id by (unfold inRange in *; lia). reflexivity.
Qed.

Lemma removed_background img n p :
  nth_error (data img) n = Some p -> background img p = true ->
  exists q, nth_error (processed img) n = Some q /\ alpha q = 0.
Proof.
  intros Hn Hbg.
  pose proof (removeBackground_nth img n p Hn) as H1. rewrite Hbg in H1.
  rewrite (processed_nth img n _ H1).
  destruct (palette img) as [|p0 rest].
  - eexists. split; [reflexivity | reflexivity].
  - eexists. split; [reflexivity|]. unfold remapPixel. reflexivity.
Qed.

Lemma index_of_xy w x y :
  0 < w -> 0 <= x < w -> 0 <= y ->
  Z.of_nat (Z.to_nat (y * w + x)) mod w = x /\
  Z.of_nat (Z.to_nat (y * w + x)) / w = y.
Proof.
  intros Hw Hx Hy. rewrite Z2Nat.id by nia. split.
  - rewrite Z.add_comm, Z.mod_add by lia. now apply Z.mod_small.
  - rewrite Z.add_comm, Z.div_add by lia. rewrite Z.div_small by exact Hx. lia.
Qed.

Lemma xy_of_index w (n : nat) :
  0 < w -> Z.to_nat (Z.of_nat n / w * w + Z.of_nat n mod w) = n.
Proof.
  intro Hw. pose proof (Z.div_mod (Z.of_nat n) w ltac:(lia)). 
  replace (Z.of_nat n / w * w + Z.of_nat n mod w) with (Z.of_nat n) by lia.
  apply Nat2Z.id.
Qed.

Lemma foregroundAt_lt img n : foregroundAt img n -> (n < length (data img))%nat.
Proof. intros [p [Hp _]]. apply nth_error_Some. congruence. Qed.

Lemma nth_error_indices {A} (f : Z -> A) len n :
  (n < Z.to_nat len)%nat ->
  nth_error (map f (indices len)) n = Some (f (Z.of_nat n)).
Proof.
  intro H. unfold indices. rewrite !nth_error_map, nth_error_seq.
  destruct (Nat.ltb_spec n (Z.to_nat len)) as [_|Hge]; [reflexivity | lia].
Qed.

Lemma sumOf_const f l v :
  (forall p, In p l -> f p = v) -> sumOf f l = Z.of_nat (length l) * v.
Proof.
  induction l as [|q rest IH]; intro H.
  - reflexivity.
  - change (sumOf f (q :: rest)) with (f q + sumOf f rest).
    rewrite (H q (or_introl eq_refl)), IH by (intros p Hp; apply H; now right).
    change (length (q :: rest)) with (S (length rest)). lia.
Qed.

Lemma size_whole st z :
  (size st == inject_Z z)%Q ->
  6 * Z.max (contentWidth st) (contentHeight st) = 5 * z.
Proof.
  unfold size, Qeq. cbn [Qnum Qden inject_Z Qmult]. lia.
Qed.

Section SecondRun.

Variables (P : Platform) (img : ImageData) (dx dy : Z).

Hypothesis Hwf : wfImage img.
Hypothesis Hcontent : hasContent (snd (removeBackground img)) = true.
Hypothesis Hdx : (destX (snd (removeBackground img)) == inject_Z dx)%Q.
Hypothesis Hdy : (destY (snd (removeBackground img)) == inject_Z dy)%Q.
Hypothesis Hopaque : opaqueForeground img.

Let st := snd (removeBackground img).
Let out := finalCanvas P img.
Let side := canvasSide st.

Lemma box_in_image :
  0 <= minX st /\ minX st <= maxX st /\ maxX st < width img /\
  0 <= minY st /\ minY st <= maxY st /\ maxY st < height img.
Proof.
  destruct Hwf as [Hsz _].
  destruct (box_tight img Hsz Hcontent)
    as [[n1 [F1 E1]] [[n2 [F2 E2]] [[n3 [F3 E3]] [n4 [F4 E4]]]]].
  fold st in E1, E2, E3, E4.
  pose proof (index_in_image img n1 Hsz (foregroundAt_lt _ _ F1)).
  pose proof (index_in_image img n2 Hsz (foregroundAt_lt _ _ F2)).
  pose proof (index_in_image img n3 Hsz (foregroundAt_lt _ _ F3)).
  pose proof (index_in_image img n4 Hsz (foregroundAt_lt _ _ F4)).
  pose proof (box_contains img n1 F1) as B. cbv zeta in B. fold st in B.
  lia.
Qed.

Lemma side_facts :
  side = 2 * dx + contentWidth st /\ side = 2 * dy + contentHeight st /\
  1 <= dx /\ 1 <= dy.
Proof.
  pose proof (side_of_destX st dx Hdx) as Sx.
  pose proof (side_of_destY st dy Hdy) as Sy.
  pose proof (size_whole st _ (half_gap _ _ dx (contentWidth st) eq_refl Hdx)) as Hs.
  pose proof box_in_image as Hbox.
  unfold side. unfold contentWidth, contentHeight in *. lia.
Qed.

Let blitted (x y : Z) : Pixel :=
  blitPixel (width img) (processed img) (minX st) (minY st)
            (contentWidth st) (contentHeight st) dx dy x y.

Lemma out_data :
  data out = map (fun n => blitted (n mod side) (n / side)) (indices (side * side)).
Proof.
  unfold out, finalCanvas, drawImage. cbn [data].
  destruct (isWhole_inject _ _ Hdx) as [-> ->].
  destruct (isWhole_inject _ _ Hdy) as [-> ->].
  reflexivity.
Qed.

Lemma side_pos : 0 < side.
Proof.
  pose proof side_facts. pose proof box_in_image.
  unfold contentWidth in *. lia.
Qed.

Lemma out_wfSize : wfSize out.
Proof.
  pose proof side_pos as Hs. unfold wfSize.
  rewrite out_data. unfold out, finalCanvas. cbn [width height]. fold st. fold side.
  repeat split; try exact Hs.
  unfold indices. rewrite !length_map, length_seq. nia.
Qed.

Lemma out_nth n :
  (n < length (data out))%nat ->
  nth_error (data out) n = Some (blitted (xOf out n) (yOf out n)).
Proof.
  rewrite out_data. intro H. unfold indices in H.
  rewrite !length_map, length_seq in H.
  now rewrite nth_error_indices.
Qed.

Lemma out_hasAlpha : hasAlpha out = true.
Proof.
  unfold hasAlpha, bgPixel. rewrite out_data. unfold indices.
  pose proof side_pos as Hs.
  destruct (Z.to_nat (side * side)) as [|k] eqn:E; [nia|].
  cbn [seq map hd]. unfold blitted, blitPixel.
  rewrite Z.mod_0_l, Z.div_0_l by lia.
  destruct side_facts as [_ [_ [H1 _]]].
  rewrite (proj2 (Z.leb_gt dx 0)) by lia. reflexivity.
Qed.

Lemma out_background p : background out p = (alpha p <? 20).
Proof. unfold background, isBackground. now rewrite out_hasAlpha. Qed.

(** A foreground pixel of the input arrives opaque, in a palette colour, at
    its place in the output. *)
Lemma content_arrives m :
  foregroundAt img m ->
  let x := dx + (xOf img m - minX st) in
  let y := dy + (yOf img m - minY st) in
  0 <= x < side /\ 0 <= y < side /\
  exists c, In c (palette img) /\
            blitted x y = mkPixel (c_r c) (c_g c) (c_b c) 255.
Proof.
  intros Hm x y.
  pose proof (box_contains img m Hm) as B. cbv zeta in B. fold st in B.
  destruct side_facts as [Sx [Sy [Dx Dy]]].
  split; [unfold x, contentWidth in *; lia|].
  split; [unfold y, contentHeight in *; lia|].
  destruct Hm as [p [Hp Hfg]].
  destruct (remapped_foreground img m p (proj2 Hwf) Hp Hfg (Hopaque m p Hp Hfg))
    as [c [Hc Hq]].
  exists c. split; [exact Hc|].
  unfold blitted, blitPixel.
  replace ((dx <=? x) && (x <? dx + contentWidth st)
           && (dy <=? y) && (y <? dy + contentHeight st)) with true
    by (symmetry; rewrite !andb_true_iff, !Z.leb_le, !Z.ltb_lt;
        unfold x, y, contentWidth, contentHeight; lia).
  unfold pixelAt.
  replace (minX st + (x - dx)) with (xOf img m) by (unfold x; lia).
  replace (minY st + (y - dy)) with (yOf img m) by (unfold y; lia).
  unfold xOf, yOf. rewrite xy_of_index by apply Hwf.
  rewrite (nth_error_nth _ _ _ Hq). reflexivity.
Qed.

(** An opaque pixel of the output is a foreground pixel of the input. *)
Lemma content_only x y :
  0 <= x < side -> 0 <= y < side -> alpha (blitted x y) <> 0 ->
  exists m, foregroundAt img m /\
            x = dx + (xOf img m - minX st) /\ y = dy + (yOf img m - minY st).
Proof.
  intros Hx Hy Ha. unfold blitted, blitPixel in Ha.
  destruct ((dx <=? x) && (x <? dx + contentWidth st)
            && (dy <=? y) && (y <? dy + contentHeight st)) eqn:E;
    [|now contradiction Ha].
  rewrite !andb_true_iff, !Z.leb_le, !Z.ltb_lt in E.
  pose proof box_in_image as Hbox. destruct Hwf as [[Hw [Hh Hlen]] _].
  set (X := minX st + (x - dx)) in *. set (Y := minY st + (y - dy)) in *.
  assert (HX : 0 <= X < width img) by (unfold X, contentWidth in *; lia).
  assert (HY : 0 <= Y < height img) by (unfold Y, contentHeight in *; lia).
  set (m := Z.to_nat (Y * width img + X)).
  destruct (index_of_xy (width img) X Y Hw HX ltac:(lia)) as [Ex Ey].
  fold m in Ex, Ey.
  assert (Hm : (m < length (data img))%nat) by (unfold m; nia).
  destruct (nth_error (data img) m) as [p|] eqn:Ep;
    [|apply nth_error_None in Ep; lia].
  exists m. unfold xOf, yOf. rewrite Ex, Ey.
  split; [|unfold X, Y; lia].
  exists p. split; [exact Ep|].
  destruct (background img p) eqn:Ebg; [|reflexivity].
  exfalso. apply Ha.
  destruct (removed_background img m p Ep Ebg) as [q [Hq Hq0]].
  unfold pixelAt. fold m. rewrite (nth_error_nth _ _ _ Hq).
  unfold sourceOver. now rewrite (proj2 (Z.eqb_eq _ _) Hq0).
Qed.

Lemma out_foreground_from m :
  foregroundAt img m ->
  exists n, foregroundAt out n /\
            xOf out n = dx + (xOf img m - minX st) /\
            yOf out n = dy + (yOf img m - minY st).
Proof.
  intro Hm. destruct (content_arrives m Hm) as [Hx [Hy [c [Hc Hb]]]].
  set (x := dx + (xOf img m - minX st)) in *.
  set (y := dy + (yOf img m - minY st)) in *.
  set (n := Z.to_nat (y * side + x)).
  destruct (index_of_xy side x y side_pos Hx ltac:(lia)) as [Ex Ey]. fold n in Ex, Ey.
  destruct out_wfSize as [_ [_ Hlen]]. change (width out) with side in Hlen.
  change (height out) with side in Hlen.
  assert (Hn : (n < length (data out))%nat) by (unfold n; nia).
  exists n. split; [|split; [exact Ex | exact Ey]].
  exists (mkPixel (c_r c) (c_g c) (c_b c) 255). split.
  - rewrite (out_nth n Hn). unfold xOf, yOf. change (width out) with side.
    now rewrite Ex, Ey, Hb.
  - rewrite out_background. reflexivity.
Qed.

Lemma out_foreground_to n :
  foregroundAt out n ->
  (exists m, foregroundAt img m /\
             xOf out n = dx + (xOf img m - minX st) /\
             yOf out n = dy + (yOf img m - minY st)) /\
  (exists c, In c (palette img) /\
             nth_error (data out) n = Some (mkPixel (c_r c) (c_g c) (c_b c) 255)).
Proof.
  intro Hn. pose proof (foregroundAt_lt _ _ Hn) as Hlt.
  destruct Hn as [p [Hp Hfg]].
  rewrite (out_nth n Hlt) in Hp. inversion Hp as [Ep]. clear Hp.
  rewrite out_background in Hfg. apply Z.ltb_ge in Hfg.
  destruct (index_in_image out n out_wfSize Hlt) as [Hx Hy].
  change (width out) with side in Hx. change (height out) with side in Hy.
  rewrite (out_nth n Hlt).
  destruct (content_only (xOf out n) (yOf out n) Hx Hy) as [m [Hm [Ex Ey]]].
  { rewrite Ep. lia. }
  split; [exists m; auto|].
  destruct (content_arrives m Hm) as [_ [_ [c [Hc Hb]]]].
  rewrite <- Ex, <- Ey in Hb. exists c. split; [exact Hc | now rewrite Hb].
Qed.

(** The second run finds the content where the first run drew it. *)
Lemma second_box :
  hasContent (snd (removeBackground out)) = true /\
  minX (snd (removeBackground out)) = dx /\
  maxX (snd (removeBackground out)) = dx + (maxX st - minX st) /\
  minY (snd (removeBackground out)) = dy /\
  maxY (snd (removeBackground out)) = dy + (maxY st - minY st).
Proof.
  assert (Hc2 : hasContent (snd (removeBackground out)) = true).
  { apply hasContent_foregroundAt.
    destruct (proj1 (hasContent_foregroundAt img) Hcontent) as [m Hm].
    destruct (out_foreground_from m Hm) as [n [Hn _]]. now exists n. }
  split; [exact Hc2|].
  destruct (box_tight out out_wfSize Hc2)
    as [[n1 [F1 E1]] [[n2 [F2 E2]] [[n3 [F3 E3]] [n4 [F4 E4]]]]].
  destruct (out_foreground_to n1 F1) as [[m1 [G1 [X1 _]]] _].
  destruct (out_foreground_to n2 F2) as [[m2 [G2 [X2 _]]] _].
  destruct (out_foreground_to n3 F3) as [[m3 [G3 [_ Y3]]] _].
  destruct (out_foreground_to n4 F4) as [[m4 [G4 [_ Y4]]] _].
  pose proof (box_contains img m1 G1) as B1.
  pose proof (box_contains img m2 G2) as B2.
  pose proof (box_contains img m3 G3) as B3.
  pose proof (box_contains img m4 G4) as B4.
  cbv zeta in B1, B2, B3, B4. fold st in B1, B2, B3, B4.
  destruct (box_tight img (proj1 Hwf) Hcontent)
    as [[k1 [K1 L1]] [[k2 [K2 L2]] [[k3 [K3 L3]] [k4 [K4 L4]]]]].
  fold st in L1, L2, L3, L4.
  destruct (out_foreground_from k1 K1) as [j1 [J1 [U1 _]]].
  destruct (out_foreground_from k2 K2) as [j2 [J2 [U2 _]]].
  destruct (out_foreground_from k3 K3) as [j3 [J3 [_ V3]]].
  destruct (out_foreground_from k4 K4) as [j4 [J4 [_ V4]]].
  pose proof (box_contains out j1 J1) as C1.
  pose proof (box_contains out j2 J2) as C2.
  pose proof (box_contains out j3 J3) as C3.
  pose proof (box_contains out j4 J4) as C4.
  cbv zeta in C1, C2, C3, C4.
  lia.
Qed.

(** Every colour of the second palette is a colour of the first. *)
Lemma second_palette c :
  In c (palette out) -> exists p, In p (palette img) /\ sameColor c p = true.
Proof.
  intro Hc. apply palette_source in Hc as [key [k [Hne ->]]].
  set (l := filter (hasKey key) (foregroundPixels out)) in *.
  assert (Hl : forall q, In q l ->
             exists p, In p (palette img) /\ colorKey p = key /\
                       q = mkPixel (c_r p) (c_g p) (c_b p) 255).
  { intros q Hq. apply filter_In in Hq as [Hq Hk]. apply key_eqb_eq in Hk.
    apply filter_In in Hq as [Hq Hfg]. apply negb_true_iff in Hfg.
    apply In_nth_error in Hq as [n Hn].
    destruct (out_foreground_to n) as [_ [p [Hp Ep]]]; [now exists q|].
    exists p. rewrite Hn in Ep. inversion Ep as [Eq]. subst q.
    repeat split; [exact Hp | exact Hk]. }
  destruct l as [|q0 rest] eqn:El; [contradiction|]. rewrite <- El in *.
  destruct (Hl q0 ltac:(rewrite El; now left)) as [p0 [Hp0 [Hk0 Eq0]]].
  exists p0. split; [exact Hp0|].
  assert (Hsame : forall q, In q l -> q = mkPixel (c_r p0) (c_g p0) (c_b p0) 255).
  { intros q Hq. destruct (Hl q Hq) as [p [Hp [Hk Eq]]].
    assert (p = p0); [|now subst p].
    apply (NoDup_map_inj colorKey
             (candidates (colorAccumulator (snd (removeBackground img))))).
    - apply (candidates_keys_NoDup _ _ (removeBackground_accFor img)).
    - now apply selectPalette_incl.
    - now apply selectPalette_incl.
    - congruence. }
  pose proof (length_pos l Hne) as Hlen.
  unfold sameColor, average, total. cbn [c_r c_g c_b b_r b_g b_b b_count].
  rewrite (sumOf_const red l (c_r p0)) by (intros q Hq; now rewrite (Hsame q Hq)).
  rewrite (sumOf_const green l (c_g p0)) by (intros q Hq; now rewrite (Hsame q Hq)).
  rewrite (sumOf_const blue l (c_b p0)) by (intros q Hq; now rewrite (Hsame q Hq)).
  rewrite !jsRoundDiv_exact by exact Hlen.
  now rewrite !Z.eqb_refl.
Qed.

End SecondRun.

Lemma opaqueForeground_check img :
  forallb (fun p => background img p || negb (alpha p =? 0)) (data img) = true ->
  opaqueForeground img.
Proof.
  intros H n p Hn Hfg Ha. rewrite forallb_forall in H.
  specialize (H p (nth_error_In _ _ Hn)).
  rewrite Hfg, (proj2 (Z.eqb_eq _ _) Ha) in H. discriminate H.
Qed.

(** C9, as the code has it.  Take a decoded image with a foreground pixel,
    whose foreground pixels all have alpha other than 0, and for which the
    crop offsets are whole numbers dx and dy.  Running the routine on the
    output then finds content again; every colour of the second palette is
    a colour of the first palette; and the second bounding box has the
    width and height of the first, with its corner at (dx, dy). *)
Theorem second_run_keeps_palette_and_box
        (P : Platform) (img : ImageData) (dx dy : Z) :
  wfImage img ->
  hasContent (snd (removeBackground img)) = true ->
  (destX (snd (removeBackground img)) == inject_Z dx)%Q ->
  (destY (snd (removeBackground img)) == inject_Z dy)%Q ->
  opaqueForeground img ->
  let st := snd (removeBackground img) in
  let st2 := snd (removeBackground (finalCanvas P img)) in
  hasContent st2 = true /\
  (forall c, In c (palette (finalCanvas P img)) ->
             exists p, In p (palette img) /\ rgb c = rgb p) /\
  contentWidth st2 = contentWidth st /\
  contentHeight st2 = contentHeight st /\
  minX st2 = dx /\ minY st2 = dy.
Proof.
  intros Hwf Hc Hx Hy Hop st st2.
  destruct (second_box P img dx dy Hwf Hc Hx Hy Hop) as [H2 [E1 [E2 [E3 E4]]]].
  split; [exact H2|]. split.
  - intros c Hin.
    destruct (second_palette P img dx dy Hwf Hc Hx Hy Hop c Hin) as [p [Hp Es]].
    exists p. split; [exact Hp|].
    unfold sameColor in Es. rewrite !andb_true_iff, !Z.eqb_eq in Es.
    unfold rgb. destruct Es as [[-> ->] ->]. reflexivity.
  - unfold contentWidth, contentHeight, st2, st. rewrite E1, E2, E3, E4.
    repeat split; lia.
Qed.

Lemma second_run_keeps_palette_and_box_witness :
  contentWidth (snd (removeBackground (finalCanvas sampleHost crowded)))
  = contentWidth (snd (removeBackground crowded)).
Proof.
  apply (second_run_keeps_palette_and_box sampleHost crowded 1 5).
  - split.
    + unfold wfSize. simpl. lia.
    + vm_compute. repeat constructor; discriminate.
  - vm_compute. reflexivity.
  - vm_compute. reflexivity.
  - vm_compute. reflexivity.
  - apply opaqueForeground_check. vm_compute. reflexivity.
Defined.

(** C9 as the specification states it fails.  On [ghost] the transparent
    pixel counts as foreground in the first run and as background in the
    second: the palette loses black and the box shrinks from 10 x 2 to
    1 x 1.  On [crowded], whose foreground is opaque, no pixel is nearest to
    the first palette colour, which the second palette lacks.  Both inputs
    are drawn at whole offsets. *)
Lemma second_run_changes_palette_and_box :
  (hasContent (snd (removeBackground ghost)) = true /\
   isWhole (destX (snd (removeBackground ghost))) = true /\
   isWhole (destY (snd (removeBackground ghost))) = true /\
   map rgb (palette ghost) = [(255, 0, 0); (0, 0, 0)] /\
   map rgb (palette (finalCanvas sampleHost ghost)) = [(255, 0, 0)] /\
   contentWidth (snd (removeBackground ghost)) = 10 /\
   contentHeight (snd (removeBackground ghost)) = 2 /\
   contentWidth (snd (removeBackground (finalCanvas sampleHost ghost))) = 1 /\
   contentHeight (snd (removeBackground (finalCanvas sampleHost ghost))) = 1) /\
  (hasContent (snd (removeBackground crowded)) = true /\
   isWhole (destX (snd (removeBackground crowded))) = true /\
   isWhole (destY (snd (removeBackground crowded))) = true /\
   map rgb (palette crowded) = [(24, 0, 0); (36, 0, 0); (11, 0, 0)] /\
   map rgb (palette (finalCanvas sampleHost crowded)) = [(11, 0, 0); (36, 0, 0)]).
Proof. vm_compute. repeat split. Qed.

(** ** C1, continued *)




(** * Further properties of the routine *)

Lemma background_self img p0 rest :
  data img = p0 :: rest -> background img p0 = true.
Proof.
  intro H. unfold background, isBackground, hasAlpha, bgPixel. rewrite H.
  cbn [hd]. destruct (alpha p0 =? 0) eqn:E; cbn [negb].
  - apply Z.eqb_eq in E. rewrite E. reflexivity.
  - unfold sqDist. rewrite !Z.sub_diag. reflexivity.
Qed.

Lemma processed_background img n p :
  nth_error (data img) n = Some p -> background img p = true ->
  nth_error (processed img) n = Some (mkPixel (red p) (green p) (blue p) 0).
Proof.
  intros Hn Hbg.
  pose proof (removeBackground_nth img n p Hn) as H1. rewrite Hbg in H1.
  rewrite (processed_nth img n _ H1).
  destruct (palette img) as [|p0 rest]; reflexivity.
Qed.

(** X1.  The first pixel is the reference of the background test and always
    passes it: it leaves the two loops with its colour and alpha 0, and an
    image of one pixel has no foreground. *)
Theorem reference_pixel_is_background (img : ImageData) (p0 : Pixel) (rest : list Pixel) :
  data img = p0 :: rest ->
  background img p0 = true /\
  nth_error (processed img) 0 = Some (mkPixel (red p0) (green p0) (blue p0) 0) /\
  (rest = [] -> hasContent (snd (removeBackground img)) = false).
Proof.
  intro H. pose proof (background_self img p0 rest H) as Hbg.
  split; [exact Hbg|]. split.
  - apply processed_background; [now rewrite H | exact Hbg].
  - intros ->. rewrite removeBackground_hasContent, H. simpl. now rewrite Hbg.
Qed.

(** X2.  An image whose pixels can be read (width and height not 0) and all
    equal its first pixel, whatever that pixel is, has no foreground, and the
    routine resolves with the input reference. *)
Theorem uniform_image_passes_through
        (P : Platform) (imageUrl : string) (img : ImageData) :
  loadImage P imageUrl = Some img ->
  width img <> 0 -> height img <> 0 ->
  (forall p, In p (data img) ->
             red p = red (bgPixel img) /\ green p = green (bgPixel img) /\
             blue p = blue (bgPixel img) /\ alpha p = alpha (bgPixel img)) ->
  hasContent (snd (removeBackground img)) = false /\
  processLogo P imageUrl = Resolved imageUrl.
Proof.
  intros Hload Hw Hh Hu.
  assert (Hc : hasContent (snd (removeBackground img)) = false).
  { rewrite removeBackground_hasContent.
    destruct (existsb (fun p => negb (background img p)) (data img)) eqn:E;
      [|reflexivity].
    apply existsb_exists in E as [p [Hp Hfg]]. apply negb_true_iff in Hfg.
    destruct (Hu p Hp) as [Er [Eg [Eb Ea]]].
    unfold background, isBackground, hasAlpha in Hfg.
    destruct (alpha (bgPixel img) =? 0) eqn:E0; cbn [negb] in Hfg.
    - apply Z.eqb_eq in E0. rewrite Ea, E0 in Hfg. discriminate Hfg.
    - rewrite Er, Eg, Eb in Hfg. unfold sqDist in Hfg.
      rewrite !Z.sub_diag in Hfg. discriminate Hfg. }
  split; [exact Hc|].
  unfold processLogo, onload. rewrite Hload, Hc, (readable_test img Hw Hh).
  now destruct (getContext P).
Qed.

Lemma addColor_countSum key r g b acc :
  countSum (addColor key r g b acc) = countSum acc + 1.
Proof.
  induction acc as [|[k bk] rest IH]; cbn [addColor].
  - reflexivity.
  - destruct (key_eqb k key).
    + unfold countSum. cbn [fold_right snd b_count]. lia.
    + unfold countSum in *. cbn [fold_right snd]. rewrite IH. lia.
Qed.

Lemma accumulate_countSum ps : forall acc,
  countSum (accumulate ps acc) = countSum acc + Z.of_nat (length ps).
Proof.
  induction ps as [|p rest IH]; intro acc.
  - simpl. lia.
  - rewrite accumulate_cons, IH, addColor_countSum.
    change (length (p :: rest)) with (S (length rest)). lia.
Qed.

(** X3.  The accumulator has one entry per key; the entry of a key holds
    the channel sums and the count of the foreground pixels of that key, at
    least one; every foreground pixel has its key in the accumulator; and
    the counts add up to the number of foreground pixels. *)
Theorem accumulator_holds_foreground_totals (img : ImageData) :
  let acc := colorAccumulator (snd (removeBackground img)) in
  NoDup (map fst acc) /\
  (forall key bk, In (key, bk) acc ->
     bk = total (filter (hasKey key) (foregroundPixels img)) /\
     1 <= b_count bk) /\
  (forall p, In p (foregroundPixels img) -> In (pixelKey p) (map fst acc)) /\
  countSum acc = Z.of_nat (length (foregroundPixels img)).
Proof.
  intro acc. destruct (removeBackground_accFor img) as [Hnd [Hbk Hkeys]].
  split; [exact Hnd|]. split; [|split; [exact Hkeys|]].
  - intros key bk Hin. destruct (Hbk key bk Hin) as [E Hne].
    split; [exact E|]. rewrite E. cbn [total b_count].
    pose proof (length_pos _ Hne). lia.
  - unfold acc. rewrite removeBackground_accumulator.
    rewrite accumulate_countSum. reflexivity.
Qed.

Lemma insertBucket_filter c x l :
  filter (fun b => b_count b =? c) (insertBucket x l) =
  filter (fun b => b_count b =? c) (x :: l).
Proof.
  induction l as [|y ys IH]; cbn [insertBucket].
  - reflexivity.
  - destruct (Z.leb_spec (b_count y) (b_count x)) as [Hle|Hgt].
    + reflexivity.
    + cbn [filter] in *. rewrite IH.
      destruct (Z.eqb_spec (b_count y) c), (Z.eqb_spec (b_count x) c);
        try reflexivity. lia.
Qed.

(** X4.  The ranking is a stable sort of the buckets by count, largest
    first: a permutation of the buckets, in descending count, that keeps the
    buckets of equal count in insertion order; there is one candidate per
    bucket. *)
Theorem ranking_is_stable (acc : Accumulator) :
  Permutation (sortedBuckets acc) (map snd acc) /\
  StronglySorted (fun a b => b_count b <= b_count a) (sortedBuckets acc) /\
  (forall c, filter (fun b => b_count b =? c) (sortedBuckets acc) =
             filter (fun b => b_count b =? c) (map snd acc)) /\
  length (candidates acc) = length acc.
Proof.
  split; [apply sortBuckets_perm|]. split; [apply sortedBuckets_descending|].
  split; [|apply candidates_length].
  intro c. unfold sortedBuckets, sortBuckets.
  induction (map snd acc) as [|x l IH]; [reflexivity|].
  cbn [fold_right]. rewrite insertBucket_filter. cbn [filter]. now rewrite IH.
Qed.

(** X5.  The rounded average colour of a bucket falls in that bucket: the
    keys of the candidates are the keys of the accumulator, so no two
    candidates have the same colour. *)
Theorem candidates_fall_in_their_buckets (img : ImageData) :
  let acc := colorAccumulator (snd (removeBackground img)) in
  Permutation (map colorKey (candidates acc)) (map fst acc) /\
  NoDup (map rgb (candidates acc)).
Proof.
  intro acc. pose proof (removeBackground_accFor img) as Hacc. fold acc in Hacc.
  assert (Hperm : Permutation (map colorKey (candidates acc)) (map fst acc)).
  { unfold candidates, sortedBuckets. rewrite mapIndexed_keys.
    eapply perm_trans; [apply Permutation_map, sortBuckets_perm|].
    rewrite map_map. rewrite (map_ext_in _ fst); [apply Permutation_refl|].
    intros [key bk] Hin. simpl.
    now apply (average_key_acc _ acc key bk 0%nat Hacc). }
  split; [exact Hperm|].
  assert (Hk : NoDup (map colorKey (candidates acc))).
  { eapply Permutation_NoDup; [apply Permutation_sym, Hperm | apply Hacc]. }
  clear Hperm. induction (candidates acc) as [|c l IH]; [constructor|].
  cbn [map] in *. inversion Hk as [|? ? Hnot Hk']; subst.
  constructor; [|now apply IH].
  intro Hin. apply Hnot. apply in_map_iff in Hin as [p [Ep Hp]].
  apply in_map_iff. exists p. split; [|exact Hp].
  unfold rgb in Ep. inversion Ep as [[Er Eg Eb]].
  unfold colorKey. now rewrite Er, Eg, Eb.
Qed.

Lemma greedy_ids_NoDup cands : forall pal,
  NoDup (map c_id (pal ++ cands)) -> NoDup (map c_id (greedy cands pal)).
Proof.
  induction cands as [|c rest IH]; intros pal H; cbn [greedy].
  - now rewrite app_nil_r in H.
  - assert (Hpal : NoDup (map c_id pal)).
    { rewrite map_app in H. now apply NoDup_app_remove_r in H. }
    destruct (4 <=? length pal)%nat; [exact Hpal|].
    destruct (isDistinct c pal).
    + apply IH. now rewrite <- app_assoc.
    + apply IH. rewrite map_app in *. cbn [map] in H.
      now apply NoDup_remove_1 in H.
Qed.

Lemma includes_false pal c :
  includes pal c = false -> ~ In (c_id c) (map c_id pal).
Proof.
  intros H Hin. apply in_map_iff in Hin as [p [E Hp]].
  assert (includes pal c = true); [|congruence].
  apply existsb_exists. exists p. split; [exact Hp | now apply Nat.eqb_eq].
Qed.

Lemma fill_ids_NoDup cands : forall pal,
  NoDup (map c_id pal) -> NoDup (map c_id (fill cands pal)).
Proof.
  induction cands as [|c rest IH]; intros pal H; cbn [fill].
  - exact H.
  - destruct (length pal <? 4)%nat; [|exact H].
    destruct (includes pal c) eqn:E; apply IH; [exact H|].
    rewrite map_app. cbn [map]. apply NoDup_app; [exact H | repeat constructor; tauto|].
    intros x Hx [<-|[]]. now apply (includes_false pal c E).
Qed.

Lemma selectPalette_ids_NoDup cands :
  NoDup (map c_id cands) -> NoDup (map c_id (selectPalette cands)).
Proof.
  intro H. unfold selectPalette.
  pose proof (greedy_ids_NoDup cands [] H) as Hg.
  destruct ((length (greedy cands []) <? 4)%nat && (0 <? length cands)%nat);
    [now apply fill_ids_NoDup | exact Hg].
Qed.

Lemma palette_ids_NoDup img : NoDup (map c_id (palette img)).
Proof. apply selectPalette_ids_NoDup, candidates_ids_NoDup. Qed.

Lemma selectPalette_length cands :
  NoDup (map c_id cands) ->
  length (selectPalette cands) = Nat.min 4 (length cands).
Proof.
  intro Hids.
  pose proof (selectPalette_ids_NoDup cands Hids) as Hnd.
  assert (Hincl : incl (selectPalette cands) cands)
    by (intros c Hc; now apply selectPalette_incl).
  pose proof (NoDup_incl_length (NoDup_map_inv _ _ Hnd) Hincl) as Hle.
  assert (H4 : (length (selectPalette cands) <= 4)%nat).
  { unfold selectPalette.
    pose proof (greedy_length cands [] ltac:(simpl; lia)) as Hg.
    destruct ((length (greedy cands []) <? 4)%nat && (0 <? length cands)%nat);
      [apply fill_length; exact Hg | exact Hg]. }
  destruct (Nat.eq_dec (length (selectPalette cands)) 4) as [E4|N4]; [lia|].
  assert (Hall : incl cands (selectPalette cands)).
  { destruct cands as [|c0 l0] eqn:Ec; [intros x []|]. rewrite <- Ec in *.
    assert (Hpos : (0 <? length cands)%nat = true) by (rewrite Ec; reflexivity).
    unfold selectPalette in *. rewrite Hpos in *.
    destruct (Nat.ltb_spec (length (greedy cands [])) 4) as [Hlt|Hge];
      cbn [andb] in *; [|lia].
    intros c Hc.
    destruct (fill_exhausts cands (greedy cands []) c ltac:(lia) Hc)
      as [p [Hp Eid]].
    now rewrite <- (NoDup_map_inj c_id _ p c Hids (Hincl p Hp) Hc Eid). }
  pose proof (NoDup_incl_length (NoDup_map_inv _ _ Hids) Hall). lia.
Qed.

(** X6.  The palette has exactly min(4, number of buckets) colours. *)
Theorem palette_size_is_min (img : ImageData) :
  length (palette img)
  = Nat.min 4 (length (colorAccumulator (snd (removeBackground img)))).
Proof.
  unfold palette.
  rewrite selectPalette_length by apply candidates_ids_NoDup.
  now rewrite candidates_length.
Qed.

(** X7.  No two palette entries have the same colour, and for pixel data
    in bytes every palette colour is in bytes. *)
Theorem palette_colours_distinct_bytes (img : ImageData) :
  NoDup (map rgb (palette img)) /\
  (Forall wfPixel (data img) ->
   forall c, In c (palette img) ->
             inRange (c_r c) /\ inRange (c_g c) /\ inRange (c_b c)).
Proof.
  split; [|intros Hwf c Hc; now apply (palette_in_range img)].
  set (acc := colorAccumulator (snd (removeBackground img))).
  pose proof (candidates_keys_NoDup _ acc (removeBackground_accFor img)) as Hk.
  assert (Hincl : forall c, In c (palette img) -> In c (candidates acc))
    by (intros c Hc; now apply selectPalette_incl).
  pose proof (NoDup_map_inv _ _ (palette_ids_NoDup img)) as Hnd.
  induction (palette img) as [|c l IH]; [constructor|].
  inversion Hnd as [|? ? Hnot Hnd']; subst. cbn [map]. constructor.
  - intro Hin. apply in_map_iff in Hin as [p [Ep Hp]]. apply Hnot.
    assert (p = c); [|now subst p].
    apply (NoDup_map_inj colorKey (candidates acc) p c Hk).
    + apply Hincl. now right.
    + apply Hincl. now left.
    + unfold rgb in Ep. inversion Ep as [[Er Eg Eb]].
      unfold colorKey. now rewrite Er, Eg, Eb.
  - apply IH; [|exact Hnd']. intros x Hx. apply Hincl. now right.
Qed.

Lemma isDistinct_false cand pal :
  isDistinct cand pal = false ->
  exists p, In p pal /\ colorDist cand p < 45 * 45.
Proof.
  induction pal as [|q rest IH]; cbn [isDistinct]; [discriminate|].
  destruct (Z.ltb_spec (colorDist cand q) (45 * 45)) as [Hlt|Hge].
  - intros _. exists q. split; [now left | exact Hlt].
  - intro H. destruct (IH H) as [p [Hp Hd]]. exists p. split; [now right | exact Hd].
Qed.

Lemma greedy_maximal cands : forall pal c,
  (length (greedy cands pal) < 4)%nat -> In c cands ->
  In c (greedy cands pal) \/
  exists p, In p (greedy cands pal) /\ colorDist c p < 45 * 45.
Proof.
  induction cands as [|x rest IH]; intros pal c Hlen Hc; [contradiction|].
  cbn [greedy] in *.
  destruct (Nat.leb_spec 4 (length pal)) as [Hge|Hlt]; [lia|].
  destruct (isDistinct x pal) eqn:E.
  - destruct Hc as [<-|Hc]; [|now apply IH].
    left. destruct (greedy_extends rest (pal ++ [x])) as [ext ->].
    apply in_or_app. left. apply in_or_app. right. now left.
  - destruct Hc as [<-|Hc]; [|now apply IH].
    right. destruct (isDistinct_false x pal E) as [p [Hp Hd]].
    exists p. split; [|exact Hd].
    destruct (greedy_extends rest pal) as [ext ->]. apply in_or_app. now left.
Qed.

(** X8.  When the greedy loop admits fewer than 4 colours it has seen every
    candidate: each candidate is admitted or lies at Euclidean distance below
    45 from an admitted colour. *)
Theorem greedy_selection_is_maximal (img : ImageData) (c : Color) :
  let cands := candidates (colorAccumulator (snd (removeBackground img))) in
  (length (greedy cands []) < 4)%nat -> In c cands ->
  In c (greedy cands []) \/
  exists p, In p (greedy cands []) /\
            (euclid (c_r c) (c_g c) (c_b c) (c_r p) (c_g p) (c_b p) < 45)%R.
Proof.
  intros cands Hlen Hc.
  destruct (greedy_maximal cands [] c Hlen Hc) as [H|[p [Hp Hd]]]; [now left|].
  right. exists p. split; [exact Hp|].
  apply (euclid_lt _ _ _ _ _ _ 45); [lia | exact Hd].
Qed.

Lemma sqDist_zero r1 g1 b1 r2 g2 b2 :
  sqDist r1 g1 b1 r2 g2 b2 <= 0 -> r1 = r2 /\ g1 = g2 /\ b1 = b2.
Proof.
  unfold sqDist. intro H.
  pose proof (Z.square_nonneg (r1 - r2)) as Hr.
  pose proof (Z.square_nonneg (g1 - g2)) as Hg.
  pose proof (Z.square_nonneg (b1 - b2)) as Hb.
  assert (Er : (r1 - r2) * (r1 - r2) = 0) by lia.
  assert (Eg : (g1 - g2) * (g1 - g2) = 0) by lia.
  assert (Eb : (b1 - b2) * (b1 - b2) = 0) by lia.
  apply Z.mul_eq_0 in Er, Eg, Eb. lia.
Qed.

Lemma remapPixel_idempotent p0 pal p :
  In p0 pal ->
  (forall c, In c pal -> inRange (c_r c) /\ inRange (c_g c) /\ inRange (c_b c)) ->
  remapPixel p0 pal (remapPixel p0 pal p) = remapPixel p0 pal p.
Proof.
  intros H0 Hr.
  assert (Hne : pal <> []) by (intro E; rewrite E in H0; contradiction).
  unfold remapPixel at 2. destruct (alpha p =? 0) eqn:Ea.
  - unfold remapPixel. now rewrite Ea.
  - destruct (closest_first_minimum (red p) (green p) (blue p) p0 pal Hne)
      as [i [Hi _]].
    set (c := closest (red p) (green p) (blue p) pal None p0) in *.
    assert (Hc : In c pal) by (eapply nth_error_In; exact Hi).
    destruct (Hr c Hc) as [Hcr [Hcg Hcb]].
    rewrite !clamp8_id by (unfold inRange in *; lia).
    unfold remapPixel. cbn [alpha red green blue]. cbn [Z.eqb].
    destruct (closest_first_minimum (c_r c) (c_g c) (c_b c) p0 pal Hne)
      as [j [Hj [Hmin _]]].
    set (c' := closest (c_r c) (c_g c) (c_b c) pal None p0) in *.
    specialize (Hmin c Hc). unfold sqDist at 2 in Hmin.
    rewrite !Z.sub_diag in Hmin. cbn in Hmin.
    destruct (sqDist_zero _ _ _ _ _ _ Hmin) as [Er [Eg Eb]].
    rewrite Ea. fold c. now rewrite <- Er, <- Eg, <- Eb.
Qed.

(** X9.  With palette colours in bytes the second loop is idempotent:
    run on its own result it changes nothing. *)
Theorem remap_is_idempotent (pal : list Color) (px : list Pixel) :
  (forall c, In c pal -> inRange (c_r c) /\ inRange (c_g c) /\ inRange (c_b c)) ->
  remap pal (remap pal px) = remap pal px.
Proof.
  intro Hr. unfold remap. destruct pal as [|p0 rest]; [reflexivity|].
  rewrite map_map. apply map_ext. intro p.
  apply remapPixel_idempotent; [now left | exact Hr].
Qed.

Lemma processed_length img : length (processed img) = length (data img).
Proof.
  unfold processed, remap. destruct (palette img).
  - now rewrite removeBackground_pixels, length_map.
  - now rewrite length_map, removeBackground_pixels, length_map.
Qed.

Lemma processed_transparent_foreground img n p :
  nth_error (data img) n = Some p -> background img p = false -> alpha p = 0 ->
  nth_error (processed img) n = Some p.
Proof.
  intros Hn Hfg Ha.
  pose proof (removeBackground_nth img n p Hn) as H1. rewrite Hfg in H1.
  rewrite (processed_nth img n p H1). unfold remapPixel.
  rewrite (proj2 (Z.eqb_eq _ _) Ha). now destruct (palette img).
Qed.

Lemma processed_pixel_cases img n q :
  Forall wfPixel (data img) ->
  nth_error (processed img) n = Some q ->
  alpha q = 0 \/
  exists c, In c (palette img) /\ q = mkPixel (c_r c) (c_g c) (c_b c) 255.
Proof.
  intros Hwf Hq.
  assert (Hlt : (n < length (data img))%nat).
  { rewrite <- processed_length. apply nth_error_Some. congruence. }
  destruct (nth_error (data img) n) as [p|] eqn:Hp;
    [|apply nth_error_None in Hp; lia].
  destruct (background img p) eqn:Ebg.
  - left. rewrite (processed_background img n p Hp Ebg) in Hq.
    inversion Hq. reflexivity.
  - destruct (Z.eq_dec (alpha p) 0) as [Ea|Ea].
    + left. rewrite (processed_transparent_foreground img n p Hp Ebg Ea) in Hq.
      inversion Hq. now subst q.
    + right. destruct (remapped_foreground img n p Hwf Hp Ebg Ea) as [c [Hc E]].
      exists c. split; [exact Hc|]. rewrite E in Hq. now inversion Hq.
Qed.

(** X10.  The two loops keep the length of the buffer; a background pixel
    leaves them with its colour and alpha 0; and a pixel leaves them with
    alpha 0 exactly when it is background or entered with alpha 0. *)
Theorem processed_buffer_shape (img : ImageData) (n : nat) (p : Pixel) :
  nth_error (data img) n = Some p ->
  length (processed img) = length (data img) /\
  exists q, nth_error (processed img) n = Some q /\
            (background img p = true ->
             q = mkPixel (red p) (green p) (blue p) 0) /\
            (alpha q = 0 <-> background img p = true \/ alpha p = 0).
Proof.
  intro Hn. split; [apply processed_length|].
  destruct (background img p) eqn:Ebg.
  - exists (mkPixel (red p) (green p) (blue p) 0).
    split; [now apply processed_background|]. split; [reflexivity|].
    split; auto.
  - pose proof (removeBackground_nth img n p Hn) as H1. rewrite Ebg in H1.
    rewrite (processed_nth img n p H1).
    eexists. split; [reflexivity|]. split; [discriminate|].
    destruct (palette img) as [|p0 rest].
    + split; [now right | intros [H|H]; [discriminate | exact H]].
    + unfold remapPixel. destruct (Z.eqb_spec (alpha p) 0) as [Ea|Ea].
      * split; [now right | intros _; exact Ea].
      * cbn [alpha]. split; [discriminate | intros [H|H]; [discriminate | contradiction]].
Qed.

(** X11.  At whole offsets the output canvas holds side x side pixels, each
    of them transparent black or a palette colour at alpha 255. *)
Theorem output_is_palette_or_transparent
        (P : Platform) (img : ImageData) (dx dy : Z) :
  Forall wfPixel (data img) ->
  (destX (snd (removeBackground img)) == inject_Z dx)%Q ->
  (destY (snd (removeBackground img)) == inject_Z dy)%Q ->
  let out := finalCanvas P img in
  Z.of_nat (length (data out)) = width out * height out /\
  Forall (fun q => q = transparent \/
                   exists c, In c (palette img) /\
                             q = mkPixel (c_r c) (c_g c) (c_b c) 255)
         (data out).
Proof.
  intros Hwf Hx Hy out.
  assert (Hdata : data out =
                  blit (width img) (processed img)
                       (minX (snd (removeBackground img)))
                       (minY (snd (removeBackground img)))
                       (contentWidth (snd (removeBackground img)))
                       (contentHeight (snd (removeBackground img)))
                       dx dy (canvasSide (snd (removeBackground img)))).
  { unfold out, finalCanvas, drawImage. cbn [data].
    destruct (isWhole_inject _ _ Hx) as [-> ->].
    destruct (isWhole_inject _ _ Hy) as [-> ->]. reflexivity. }
  rewrite Hdata. split.
  - unfold blit, indices. rewrite !length_map, length_seq.
    unfold out, finalCanvas. cbn [width height].
    apply Z2Nat.id. apply Z.square_nonneg.
  - unfold blit. apply Forall_map, Forall_forall. intros n _.
    unfold blitPixel.
    destruct ((dx <=? n mod _) && _ && _ && _); [|now left].
    unfold pixelAt.
    match goal with |- context [nth ?m (processed img) transparent] =>
      destruct (nth_error (processed img) m) as [q|] eqn:Eq;
        [rewrite (nth_error_nth _ _ _ Eq)
        |rewrite (nth_overflow _ _ (proj1 (nth_error_None _ _) Eq)); now left]
    end.
    destruct (processed_pixel_cases img _ q Hwf Eq) as [Ha|[c [Hc E]]].
    + left. unfold sourceOver. now rewrite (proj2 (Z.eqb_eq _ _) Ha).
    + right. exists c. split; [exact Hc|]. rewrite E. reflexivity.
Qed.

(** X12.  With a foreground pixel in a decoded image the bounding box lies
    inside the image: contentWidth is between 1 and the width, contentHeight
    between 1 and the height. *)
Theorem bounding_box_inside_image (img : ImageData) :
  wfSize img -> hasContent (snd (removeBackground img)) = true ->
  let st := snd (removeBackground img) in
  (0 <= minX st /\ minX st <= maxX st /\ maxX st < width img) /\
  (0 <= minY st /\ minY st <= maxY st /\ maxY st < height img) /\
  1 <= contentWidth st <= width img /\
  1 <= contentHeight st <= height img.
Proof.
  intros Hsz Hc st.
  destruct (box_tight img Hsz Hc)
    as [[n1 [F1 E1]] [[n2 [F2 E2]] [[n3 [F3 E3]] [n4 [F4 E4]]]]].
  fold st in E1, E2, E3, E4.
  pose proof (index_in_image img n1 Hsz (foregroundAt_lt _ _ F1)).
  pose proof (index_in_image img n2 Hsz (foregroundAt_lt _ _ F2)).
  pose proof (index_in_image img n3 Hsz (foregroundAt_lt _ _ F3)).
  pose proof (index_in_image img n4 Hsz (foregroundAt_lt _ _ F4)).
  pose proof (box_contains img n1 F1) as B. cbv zeta in B. fold st in B.
  unfold contentWidth, contentHeight. lia.
Qed.

(** * Properties of the services and the page *)

Lemma split_without sep s :
  inString sep s = false -> split sep s = (s, []).
Proof.
  induction s as [|a rest IH]; cbn [inString split]; [reflexivity|].
  intro H. apply orb_false_iff in H as [Ha Hr].
  rewrite (IH Hr), Ha. reflexivity.
Qed.

Lemma split_at_first sep pre rest :
  inString sep pre = false ->
  split sep (pre ++ String sep rest)
  = (pre, fst (split sep rest) :: snd (split sep rest)).
Proof.
  induction pre as [|a pre IH]; cbn [inString]; intro H.
  - cbn [append split]. destruct (split sep rest). now rewrite Ascii.eqb_refl.
  - apply orb_false_iff in H as [Ha Hr].
    change (String a pre ++ String sep rest)%string
      with (String a (pre ++ String sep rest)).
    cbn [split]. rewrite (IH Hr), Ha. reflexivity.
Qed.

Lemma split_pieces_clean sep s :
  inString sep (fst (split sep s)) = false /\
  Forall (fun piece => inString sep piece = false) (snd (split sep s)).
Proof.
  induction s as [|a rest [IH1 IH2]]; cbn [split].
  - split; [reflexivity | constructor].
  - destruct (split sep rest) as [piece pieces]. cbn [fst snd] in *.
    destruct (Ascii.eqb a sep) eqn:E; cbn [fst snd].
    + split; [reflexivity | now constructor].
    + split; [cbn [inString]; now rewrite E | exact IH2].
Qed.

Lemma eqb_empty s : String.eqb s "" = false <-> s <> ""%string.
Proof. apply String.eqb_neq. Qed.

(** X13.  [cleanBase64] is the input when it has no comma; it is the text
    after the first comma of a data reference, up to the next comma if there
    is one, when that text is not empty; in every case it is the input or a
    non-empty text without comma, and applying it twice is applying it
    once. *)
Theorem cleanBase64_takes_the_payload (s : string) :
  (inString "," s = false -> cleanBase64 s = s) /\
  (forall pre payload,
     s = (pre ++ String "," payload)%string ->
     inString "," pre = false -> inString "," payload = false ->
     payload <> ""%string -> cleanBase64 s = payload) /\
  (forall pre payload tail,
     s = (pre ++ String "," (payload ++ String "," tail))%string ->
     inString "," pre = false -> inString "," payload = false ->
     payload <> ""%string -> cleanBase64 s = payload) /\
  (cleanBase64 s = s \/
   (inString "," (cleanBase64 s) = false /\ cleanBase64 s <> ""%string)) /\
  cleanBase64 (cleanBase64 s) = cleanBase64 s.
Proof.
  assert (T1 : forall t, inString "," t = false -> cleanBase64 t = t).
  { intros t H. unfold cleanBase64. now rewrite (split_without _ _ H). }
  assert (T4 : cleanBase64 s = s \/
               (inString "," (cleanBase64 s) = false /\
                cleanBase64 s <> ""%string)).
  { unfold cleanBase64. destruct (split_pieces_clean "," s) as [_ Hp].
    destruct (snd (split "," s)) as [|piece pieces]; [now left|].
    destruct (String.eqb piece "") eqn:E; [now left | right].
    inversion Hp; subst. split; [assumption | now apply eqb_empty]. }
  split; [apply T1|]. split; [|split; [|split; [exact T4|]]].
  - intros pre payload -> Hpre Hpay Hne. unfold cleanBase64.
    rewrite (split_at_first _ _ _ Hpre), (split_without _ _ Hpay). cbn [fst snd].
    now rewrite (proj2 (eqb_empty payload) Hne).
  - intros pre payload tail -> Hpre Hpay Hne. unfold cleanBase64.
    rewrite (split_at_first _ _ _ Hpre), (split_at_first _ _ _ Hpay).
    cbn [fst snd]. now rewrite (proj2 (eqb_empty payload) Hne).
  - destruct T4 as [E|[H _]]; [rewrite E; exact E | now apply T1].
Qed.

Lemma orNumber_nonzero v d : ~ (d == 0)%Q -> ~ (orNumber v d == 0)%Q.
Proof.
  intro Hd. unfold orNumber. destruct v as [a|]; [|exact Hd].
  destruct (Qeq_bool a 0) eqn:E; [exact Hd|].
  intro H. apply Qeq_bool_iff in H. congruence.
Qed.

(** X14.  Whatever the service answers, the analysis has a complexity
    rating and a recommended scale other than 0; when the request or the
    parsing fails the design is reported as not printable at 19.99. *)
Theorem analysis_rating_and_scale_never_zero
        (F : Binary64) (generate : string -> option Reply)
        (imageBase64 : string) :
  let result := analyzeDesign F generate imageBase64 in
  ~ (ar_complexityRating result == 0)%Q /\
  ~ (ar_recommendedScale result == 0)%Q /\
  (generate (cleanBase64 imageBase64) = None ->
   ar_isPrintable result = false /\ (ar_estimatedPrice result == 1999 # 100)%Q).
Proof.
  cbv zeta. unfold analyzeDesign.
  destruct (generate (cleanBase64 imageBase64)) as [r|].
  - split; [|split; [|discriminate]];
      cbn [priced ar_complexityRating ar_recommendedScale];
      apply orNumber_nonzero; discriminate.
  - split; [discriminate|]. split; [discriminate|].
    intros _. split; reflexivity.
Qed.

(** X16.  [saveDesignToDatabase] resolves with the id it generated whatever
    the store does; the row of an insert it sends has that id, the given
    configuration and analysis, and status pending_payment; no error is
    logged exactly when an insert was sent and came back without error. *)
Theorem save_always_returns_the_id
        (B : Backend) (random : string) (config : LogoConfig)
        (analysis : AnalysisResult) :
  let saved := saveDesignToDatabase B random config analysis in
  let designId := ("PF-" ++ random)%string in
  sv_id saved = designId /\
  (forall row, In (Insert row) (sv_calls saved) ->
     row_id row = designId /\ row_config row = config /\
     row_analysis row = analysis /\ row_status row = "pending_payment"%string) /\
  (sv_logged saved = false <->
   exists row, In (Insert row) (sv_calls saved) /\ insert B row = true) /\
  (sv_logged saved = true ->
   forall row, In (Insert row) (sv_calls saved) -> insert B row = false).
Proof.
  cbv zeta. unfold saveDesignToDatabase.
  destruct (truthyUrl (lc_url config)) as [url|].
  - destruct (fetchBlob B url) as [blob|].
    + destruct (upload B _ blob) eqn:Eu; cbn [sv_id sv_calls sv_logged].
      * split; [reflexivity|]. split; [|split; [split|]].
        -- intros row [H|[H|[]]]; [discriminate|]. inversion H; subst. auto.
        -- intro H. apply negb_false_iff in H. eexists.
           split; [right; left; reflexivity | exact H].
        -- intros [row [[H|[H|[]]] Hi]]; [discriminate|]. inversion H; subst.
           apply negb_false_iff. exact Hi.
        -- intros H row [Hr|[Hr|[]]]; [discriminate|]. inversion Hr; subst.
           now apply negb_true_iff.
      * split; [reflexivity|]. split; [|split; [split|]].
        -- intros row [H|[]]. discriminate.
        -- discriminate.
        -- intros [row [[H|[]] _]]. discriminate.
        -- intros _ row [H|[]]. discriminate.
    + cbn [sv_id sv_calls sv_logged].
      split; [reflexivity|]. split; [|split; [split|]].
      * intros row [].
      * discriminate.
      * intros [row [[] _]].
      * intros _ row [].
  - cbn [sv_id sv_calls sv_logged].
    split; [reflexivity|]. split; [|split; [split|]].
    + intros row [H|[]]. inversion H; subst. auto.
    + intro H. apply negb_false_iff in H. eexists. split; [left; reflexivity | exact H].
    + intros [row [[H|[]] Hi]]. inversion H; subst.
      apply negb_false_iff. exact Hi.
    + intros H row [Hr|[]]. inversion Hr; subst. now apply negb_true_iff.
Qed.

Lemma analyzeDesign_scale_nonzero F generate image :
  Qeq_bool (ar_recommendedScale (analyzeDesign F generate image)) 0 = false.
Proof.
  destruct (Qeq_bool (ar_recommendedScale (analyzeDesign F generate image)) 0)
    eqn:E; [|reflexivity].
  apply Qeq_bool_iff in E. exfalso. revert E. unfold analyzeDesign.
  destruct (generate (cleanBase64 image)) as [r|].
  - cbn [priced ar_recommendedScale]. apply orNumber_nonzero. discriminate.
  - discriminate.
Qed.

(** X18.  After the upload of a readable file of at most 5 * 1024 * 1024
    bytes no error is shown: the routine never rejects, so the branch for
    system errors is not taken.  When the image fails to decode or decodes
    with width and height not 0, the status text ends empty, the logo is the
    result of [processLogo] at position 0, 0 and rotation 0, and the analysis
    is stored; a printable design goes to step 3 at the recommended scale,
    any other stays at step 2 at scale 30.  When the image decodes with a
    width or a height of 0 and the context is granted, the page stays at
    step 2 with the status text of the background removal, and the logo and
    the analysis are as before. *)
Theorem upload_outcome
        (P : Platform) (F : Binary64) (generate : string -> option Reply)
        (f : File) (rawResult : string) (st : AppState) :
  f_size f <= 5 * 1024 * 1024 -> f_result f = Some rawResult ->
  let st' := handleFileUpload P F generate (Some f) st in
  fileError st' = None /\
  ((forall img, loadImage P rawResult = Some img ->
                width img <> 0 /\ height img <> 0) ->
   processingStatus st' = ""%string /\
   exists processedImage,
     processLogo P rawResult = Resolved processedImage /\
     let aiResult := analyzeDesign F generate processedImage in
     analysis st' = Some aiResult /\
     lc_url (logoConfig st') = Some processedImage /\
     lc_x (logoConfig st') = 0%Q /\ lc_y (logoConfig st') = 0%Q /\
     lc_rotation (logoConfig st') = 0%Q /\
     (if ar_isPrintable aiResult
      then activeStep st' = 3 /\
           lc_scale (logoConfig st') = ar_recommendedScale aiResult
      else activeStep st' = 2 /\ lc_scale (logoConfig st') = 30%Q)) /\
  (forall img, loadImage P rawResult = Some img -> getContext P = true ->
               width img = 0 \/ height img = 0 ->
   activeStep st' = 2 /\
   processingStatus st' = "Hintergrund wird entfernt..."%string /\
   analysis st' = analysis st /\ logoConfig st' = logoConfig st).
Proof.
  intros Hsize Hres st'. unfold st', handleFileUpload.
  rewrite Z.gtb_ltb, (proj2 (Z.ltb_ge _ _)) by lia. rewrite Hres.
  split; [|split].
  - destruct (processLogo P rawResult) as [image|reason|] eqn:E.
    + now destruct (ar_isPrintable (analyzeDesign F generate image)).
    + exfalso. exact (processLogo_not_rejected P rawResult reason E).
    + reflexivity.
  - intro Hr. destruct (processLogo_resolves P rawResult Hr) as [image E].
    rewrite E.
    destruct (ar_isPrintable (analyzeDesign F generate image)) eqn:Ep;
      cbn [fileError processingStatus analysis logoConfig activeStep].
    + split; [reflexivity|]. exists image.
      split; [reflexivity|]. cbv zeta. rewrite Ep.
      cbn [lc_url lc_x lc_y lc_rotation lc_scale].
      rewrite analyzeDesign_scale_nonzero. repeat split.
    + split; [reflexivity|]. exists image.
      split; [reflexivity|]. cbv zeta. rewrite Ep.
      cbn [lc_url lc_x lc_y lc_rotation lc_scale]. repeat split.
  - intros img Hload Hctx Hz.
    assert (E : processLogo P rawResult = Pending)
      by (apply processLogo_pending; exists img; auto).
    rewrite E. repeat split.
Qed.

(** X19.  When the analysis service fails, an accepted upload of an image
    that fails to decode or decodes with width and height not 0 ends at
    step 2 with no error message and an empty status text, the fallback
    analysis stored and the scale at 30. *)
Theorem failed_analysis_stalls_at_step_2
        (P : Platform) (F : Binary64) (generate : string -> option Reply)
        (f : File) (rawResult : string) (st : AppState) :
  f_size f <= 5 * 1024 * 1024 -> f_result f = Some rawResult ->
  (forall img, loadImage P rawResult = Some img ->
               width img <> 0 /\ height img <> 0) ->
  (forall data, generate data = None) ->
  let st' := handleFileUpload P F generate (Some f) st in
  activeStep st' = 2 /\ fileError st' = None /\
  processingStatus st' = ""%string /\
  analysis st' = Some analysisFallback /\
  lc_scale (logoConfig st') = 30%Q.
Proof.
  intros Hsize Hres Hr Hfail st'. unfold st', handleFileUpload.
  rewrite Z.gtb_ltb, (proj2 (Z.ltb_ge _ _)) by lia. rewrite Hres.
  destruct (processLogo_resolves P rawResult Hr) as [image E]. rewrite E.
  unfold analyzeDesign. rewrite Hfail. cbn. repeat split.
Qed.

(** ** Sample runs *)

Lemma reference_pixel_is_background_witness :
  background scenarioC white = true.
Proof.
  apply (reference_pixel_is_background scenarioC white [white; white; white]).
  reflexivity.
Defined.

Lemma uniform_image_passes_through_witness :
  processLogo sampleHost "C" = Resolved "C".
Proof.
  apply (uniform_image_passes_through sampleHost "C" scenarioC).
  - reflexivity.
  - discriminate.
  - discriminate.
  - intros p Hp. simpl in Hp.
    destruct Hp as [<-|[<-|[<-|[<-|[]]]]]; repeat split.
Defined.

Lemma greedy_selection_is_maximal_witness :
  In (mkColor 1 100 40 0)
     (greedy (candidates (colorAccumulator (snd (removeBackground shades)))) []) \/
  exists p,
    In p (greedy (candidates (colorAccumulator (snd (removeBackground shades)))) []) /\
    (euclid 100 40 0 (c_r p) (c_g p) (c_b p) < 45)%R.
Proof.
  apply (greedy_selection_is_maximal shades (mkColor 1 100 40 0)).
  - vm_compute. lia.
  - vm_compute. right. left. reflexivity.
Defined.

Lemma remap_is_idempotent_witness :
  remap (palette scenarioA) (remap (palette scenarioA) (data scenarioA))
  = remap (palette scenarioA) (data scenarioA).
Proof.
  apply (remap_is_idempotent (palette scenarioA) (data scenarioA)).
  intros c Hc. vm_compute in Hc. destruct Hc as [<-|[]].
  vm_compute. repeat split; discriminate.
Defined.

Lemma processed_buffer_shape_witness :
  length (processed scenarioA) = length (data scenarioA).
Proof.
  apply (processed_buffer_shape scenarioA 0 white). reflexivity.
Defined.

Lemma output_is_palette_or_transparent_witness :
  Z.of_nat (length (data (finalCanvas sampleHost ghost))) = 12 * 12.
Proof.
  apply (output_is_palette_or_transparent sampleHost ghost 1 5).
  - vm_compute. repeat constructor; discriminate.
  - vm_compute. reflexivity.
  - vm_compute. reflexivity.
Defined.

Lemma bounding_box_inside_image_witness :
  1 <= contentWidth scanA <= width scenarioA.
Proof.
  apply (bounding_box_inside_image scenarioA).
  - unfold wfSize. simpl. lia.
  - vm_compute. reflexivity.
Defined.

Lemma sampleHost_readable raw img :
  loadImage sampleHost raw = Some img -> width img <> 0 /\ height img <> 0.
Proof.
  cbn [loadImage sampleHost hostWith].
  destruct (String.eqb raw "A"); [intro H; inversion H; split; discriminate|].
  destruct (String.eqb raw "C"); [intro H; inversion H; split; discriminate|].
  discriminate.
Qed.

Lemma upload_outcome_witness :
  processingStatus (handleFileUpload sampleHost unrounded noReply
                      (Some (mkFile 2048 (Some "A"%string))) initialState)
  = ""%string /\
  processingStatus (handleFileUpload emptyHost unrounded noReply
                      (Some (mkFile 2048 (Some "Z"%string))) initialState)
  = "Hintergrund wird entfernt..."%string.
Proof.
  split.
  - apply (proj1 (proj2 (upload_outcome sampleHost unrounded noReply
                           (mkFile 2048 (Some "A"%string)) "A" initialState
                           ltac:(simpl; lia) eq_refl))).
    apply sampleHost_readable.
  - apply (proj2 (proj2 (upload_outcome emptyHost unrounded noReply
                           (mkFile 2048 (Some "Z"%string)) "Z" initialState
                           ltac:(simpl; lia) eq_refl))
                 emptyImage eq_refl eq_refl (or_introl eq_refl)).
Defined.

Lemma failed_analysis_stalls_at_step_2_witness :
  activeStep (handleFileUpload sampleHost unrounded noReply
                (Some (mkFile 2048 (Some "A"%string))) initialState) = 2.
Proof.
  apply (failed_analysis_stalls_at_step_2 sampleHost unrounded noReply
           (mkFile 2048 (Some "A"%string)) "A" initialState).
  - simpl. lia.
  - reflexivity.
  - apply sampleHost_readable.
  - reflexivity.
Defined.
